(** * podstats: readings, the aggregation table, the pollers and the exposition

    A shallow embedding of [cmd/podstats/main.go].

    - A [Reading] is the Go struct, with [Value] an IEEE-754 binary64
      number (Rocq's primitive [float]) and [Type] the Go [int]-based
      enumeration [MetricType].
    - [MetricsHolder.lines] is a [gmap] from keys to readings.  The Go map
      holds pointers to readings; no function of the program writes through
      such a pointer ([Accept] copies its receiver), and a nil pointer never
      reaches the map, so the map is modelled by value.
    - The goroutines are modelled by what they do with the inputs they are
      handed: the worker of [NewMetrics] with the values received on the
      channel, [NewWatcher] and [ShovelList] with the results of their
      calls and [select] statements, each emitting the trace of its actions.
*)

From Stdlib Require Import Floats ZArith String Ascii.
From stdpp Require Import gmap strings list pretty.

Local Open Scope string_scope.
Local Open Scope list_scope.
Local Open Scope Z_scope.

(** ** Data model *)

(** [type MetricType int], with [Counter = iota + 1] and [Instant] after it. *)
Definition MetricType := Z.
Definition Counter : MetricType := 1.
Definition Instant : MetricType := 2.

(** [type Reading struct]; the field [Type] is spelled [Type_]. *)
Record Reading := mkReading {
  Key : string;
  Value : float;
  Time : string;
  Type_ : MetricType
}.

(** [func (r *Reading) Accept(new *Reading) *Reading]: [result := *r] is a copy
    of the receiver, updated field by field. *)
Definition Accept (r new : Reading) : Reading :=
  let result := r in
  if Type_ new =? Counter then
    {| Key := Key result;
       Value := PrimFloat.add (Value result) (Value new);
       Time := Time new;
       Type_ := Type_ result |}
  else if Type_ new =? Instant then
    {| Key := Key result;
       Value := Value new;
       Time := Time new;
       Type_ := Type_ result |}
  else result.

(** ** The aggregation table and its worker *)

(** A value of type [interface{}] travelling on the channel: the nil
    interface, a pointer to a [Reading] (which may itself be nil), or a value
    of some other dynamic type. *)
Inductive Iface :=
| INil
| IReadingPtr (p : option Reading)
| IOther (dynamic_type : string).

Definition is_ReadingPtr (w : Iface) : bool :=
  match w with IReadingPtr _ => true | _ => false end.

(** [w, ok := <-m.channel]: a sent value comes with [ok = true], a closed
    channel yields the zero value of [interface{}] with [ok = false]. *)
Inductive Received :=
| RecvValue (w : Iface)
| RecvFromClosed.

Definition recv (r : Received) : Iface * bool :=
  match r with
  | RecvValue w => (w, true)
  | RecvFromClosed => (INil, false)
  end.

(** What the worker cannot take for a pointer to a reading: a value of
    another dynamic type, the nil interface, or the result of receiving
    from the closed channel. *)
Definition not_a_ReadingPtr (r : Received) : bool :=
  negb (is_ReadingPtr (recv r).1).

Inductive PanicReason :=
| InterfaceConversion
| NilDereference.

(** One turn of the [for] loop in [NewMetrics]. *)
Inductive Turn :=
| Continue (lines : gmap string Reading)
| Break (lines : gmap string Reading)
| Panic (why : PanicReason).

(** The store at the end of the loop body: merge into the entry of
    [reading.Key] when there is one, else keep the reading itself. *)
Definition store (lines : gmap string Reading) (reading : Reading) : gmap string Reading :=
  match lines !! Key reading with
  | Some val => <[Key reading := Accept val reading]> lines
  | None => <[Key reading := reading]> lines
  end.

(** The body of the loop after the receive, statement by statement:
    the type assertion of [w] to a pointer to [Reading], then [if !ok { break }], then the
    lookup of [reading.Key] and the store. *)
Definition worker_body (lines : gmap string Reading) (w : Iface) (ok : bool) : Turn :=
  match w with
  | IReadingPtr reading =>
      if negb ok then Break lines
      else match reading with
           | None => Panic NilDereference
           | Some rd => Continue (store lines rd)
           end
  | _ => Panic InterfaceConversion
  end.

Definition worker_turn (lines : gmap string Reading) (r : Received) : Turn :=
  let '(w, ok) := recv r in worker_body lines w ok.

(** How the goroutine stands once everything sent has been received. *)
Inductive Worker :=
| Waiting (lines : gmap string Reading)
| Exited (lines : gmap string Reading)
| Panicked (why : PanicReason).

(** The worker run over the successive results of its receive statement;
    when they are used up it is blocked in the receive. *)
Fixpoint worker (lines : gmap string Reading) (received : list Received) : Worker :=
  match received with
  | r :: rest =>
      match worker_turn lines r with
      | Continue lines' => worker lines' rest
      | Break lines' => Exited lines'
      | Panic why => Panicked why
      end
  | [] => Waiting lines
  end.

(** [NewMetrics]: the table starts empty. *)
Definition NewMetrics_lines : gmap string Reading := ∅.

(** What the worker receives when a (non-nil) pointer to a reading is sent on
    [m.Channel()]. *)
Definition submit (rd : Reading) : Received := RecvValue (IReadingPtr (Some rd)).

(** The left fold of the merge over a key's submissions, the first one
    taken as it is. *)
Definition merge_fold (submissions : list Reading) : option Reading :=
  match submissions with
  | [] => None
  | first :: later => Some (foldl Accept first later)
  end.

Definition for_key (k : string) (rs : list Reading) : list Reading :=
  filter (λ rd, Key rd = k) rs.

(** The entries of a table are filed under their own keys. *)
Definition keyed (lines : gmap string Reading) : Prop :=
  ∀ k r, lines !! k = Some r → Key r = k.

(** The readings [Accept] acts on: those of type [Counter] or [Instant]. *)
Definition recognised (rd : Reading) : bool :=
  (Type_ rd =? Counter) || (Type_ rd =? Instant).

(** Each reading of [readings] that is not recognised finds, when the
    worker takes it, an entry under its key: one the table [lines] had, or
    one an earlier reading of the sequence made. *)
Fixpoint sent_to_entries (lines : gmap string Reading) (readings : list Reading) : Prop :=
  match readings with
  | [] => True
  | rd :: rest =>
      (recognised rd = false → is_Some (lines !! Key rd)) ∧
      sent_to_entries (store lines rd) rest
  end.

(** ** The exposition handler *)

(** *** [fmt.Sprintf("%f", x)] on a [float64]

    Go prints the exact binary value rounded to six decimals, ties to even
    (strconv's arbitrary-precision path), with ["NaN"], ["+Inf"] and ["-Inf"]
    for the special values and the sign kept on negative zeros. *)

Definition digit (d : Z) : ascii := ascii_of_N (48 + Z.to_N d).

(** The last [width] decimal digits of [n], put before [tail]. *)
Fixpoint decimal_fixed (width : nat) (n : Z) (tail : string) : string :=
  match width with
  | O => tail
  | S width' => decimal_fixed width' (n / 10) (String (digit (n mod 10)) tail)
  end.

(** [num / den] rounded to the nearest integer, ties to even ([0 <= num], [0 < den]). *)
Definition round_half_even (num den : Z) : Z :=
  let q := num / den in
  match 2 * (num mod den) ?= den with
  | Lt => q
  | Gt => q + 1
  | Eq => if Z.even q then q else q + 1
  end.

(** The millionths in [m * 2^e], rounded. *)
Definition millionths (m : positive) (e : Z) : Z :=
  if 0 <=? e then Z.pos m * 2 ^ e * 10 ^ 6
  else round_half_even (Z.pos m * 10 ^ 6) (2 ^ (- e)).

Definition fixed6 (n : Z) : string :=
  pretty (n / 10 ^ 6) +:+ "." +:+ decimal_fixed 6 (n mod 10 ^ 6) EmptyString.

Definition sign_prefix (negative : bool) : string :=
  if negative then "-" else EmptyString.

Definition Sprintf_f (x : float) : string :=
  match Prim2SF x with
  | S754_nan => "NaN"
  | S754_infinity false => "+Inf"
  | S754_infinity true => "-Inf"
  | S754_zero s => sign_prefix s +:+ fixed6 0
  | S754_finite s m e => sign_prefix s +:+ fixed6 (millionths m e)
  end.

Definition newline : string := String (ascii_of_N 10) EmptyString.

(** *** [CreateHandler]

    The response body is the string of the bytes written so far. *)
Definition Write (w : string) (p : string) : string := w +:+ p.

(** The body of the [range] loop of the handler: four writes. *)
Definition handler_body (w : string) (k : string) (v : Reading) : string :=
  let w := Write w k in
  let w := Write w " " in
  let w := Write w (Sprintf_f (Value v)) in
  Write w newline.

(** The handler run with the entries of [m.lines] in the order [range]
    yields them. *)
Definition handler_range (w : string) (order : list (string * Reading)) : string :=
  foldl (λ w kv, handler_body w kv.1 kv.2) w order.

(** Go leaves the iteration order of a map unspecified: [range] visits each
    entry once, in some order. *)
Definition range_order {V} (m : gmap string V) (order : list (string * V)) : Prop :=
  order ≡ₚ map_to_list m.

(** [body] is a response the handler of [CreateHandler] can write for the
    table [lines]. *)
Definition CreateHandler (lines : gmap string Reading) (body : string) : Prop :=
  ∃ order, range_order lines order ∧ body = handler_range EmptyString order.

(** One line of the exposition. *)
Definition exposition_line (k : string) (value : float) : string :=
  k +:+ " " +:+ Sprintf_f value +:+ newline.

(** The lines of the entries [order], one after the other. *)
Definition exposition (order : list (string * Reading)) : string :=
  foldr (λ kv rest, exposition_line kv.1 (Value kv.2) +:+ rest) EmptyString order.

(** *** [render]

    [labels] are the variadic maps, each given as the sequence of entries
    its [range] loop yields.  The state of the loops is the buffer and the
    flag [first]. *)
Definition double_quote : string := String (ascii_of_N 34) EmptyString.

Definition WriteString (buffer : string) (s : string) : string := buffer +:+ s.

Definition render_entry (st : string * bool) (kv : string * string) : string * bool :=
  let '(buffer, first) := st in
  let '(buffer, first) :=
    if negb first then (WriteString buffer ", ", first) else (buffer, false) in
  let buffer := WriteString buffer kv.1 in
  let buffer := WriteString buffer ("=" +:+ double_quote) in
  let buffer := WriteString buffer kv.2 in
  let buffer := WriteString buffer double_quote in
  (buffer, first).

Definition render (name : string) (value : string) (time : Z)
    (labels : list (list (string * string))) : string :=
  let buffer := WriteString EmptyString "{" in
  let first := true in
  let '(buffer, first) :=
    foldl (λ st l, foldl render_entry st l) (buffer, first) labels in
  let buffer := WriteString buffer "} " in
  let buffer := WriteString buffer value in
  let buffer := WriteString buffer " " in
  let buffer := WriteString buffer (pretty time) in
  buffer.


(** One label as [render] writes it: the key, [=], and the value between
    double quotes. *)
Definition label_pair (kv : string * string) : string :=
  kv.1 +:+ "=" +:+ double_quote +:+ kv.2 +:+ double_quote.

(** ** The watch reconnector and the list poller *)

(** Go's [error] values, by their message; [None] is the nil error. *)
Definition error := string.

(** [time.Duration] counts nanoseconds. *)
Definition Second : Z := 1000000000.

Module metav1.
(** The fields of [metav1.ListOptions] the program sets; the zero value of
    [ResourceVersion], the empty string, is the unset resource version. *)
Record ListOptions := mkListOptions {
  Watch : bool;
  AllowWatchBookmarks : bool;
  ResourceVersion : string
}.
End metav1.

Module watch.
(** [watch.EventType] is a string type; [Bookmark] is one of its constants. *)
Definition EventType := string.
Definition Bookmark : EventType := "BOOKMARK".

(** [watch.Event], over the type of [runtime.Object] values. *)
Record Event (RuntimeObject : Type) := mkEvent {
  Type_ : EventType;
  Object : RuntimeObject
}.
Arguments mkEvent {_} _ _.
Arguments Type_ {_} _.
Arguments Object {_} _.
End watch.

Module apiv1.
(** [apiv1.Pod], by the one field the program reads. *)
Record Pod := mkPod { ResourceVersion : string }.
Definition Pod_zero : Pod := {| ResourceVersion := EmptyString |}.
End apiv1.

Inductive Level := Debug | Info | Error.

(** ** [main], from the parsed flags on

    The calls [main] makes into its libraries are steps of a trace; what
    each of them returns is given by [Outcomes]. *)

Record Flags := mkFlags {
  kubeconfig : string;
  namespace : string;
  debug : bool
}.

(** The error each fallible call returns, [None] for nil: the logger
    constructor, [clientcmd.BuildConfigFromFlags], [kubernetes.NewForConfig]
    in [NewPodWatcher], [metrics.NewForConfig] in [NewMetricsLister],
    [memory.NewAdapter], [cache.NewClient] and [http.ListenAndServe]. *)
Record Outcomes := mkOutcomes {
  logger_err : option error;
  config_err : option error;
  pod_clientset_err : option error;
  metrics_clientset_err : option error;
  adapter_err : option error;
  client_err : option error;
  listen_err : option error
}.

Inductive Step :=
| NewDevelopment
| NewProduction
| DeferSync
| BuildConfigFromFlags (masterUrl kubeconfigPath : string)
| LoggerError (msg : string) (err : error)
| GoWorker
| NewPodWatcher (namespace : string)
| GoWatcher
| NewMetricsLister (namespace : string)
| GoPoller
| NewAdapter (capacity : Z)
| NewClient (ttl : Z) (refreshKey : string)
| Handle (pattern : string)
| ListenAndServe (addr : string)
| Sync.

(** How [main] ends: [os.Exit], which runs no deferred call, a panic, or
    the return, which runs the deferred [logger.Sync]. *)
Inductive Ending :=
| Exit (code : Z)
| Panics (err : error)
| Returns.

Definition Minute : Z := 60 * Second.

Definition main (flags : Flags) (o : Outcomes) : list Step * Ending :=
  let new_logger := if debug flags then NewDevelopment else NewProduction in
  match logger_err o with
  | Some err => ([new_logger], Panics err)
  | None =>
  let t := [new_logger; DeferSync;
            BuildConfigFromFlags EmptyString (kubeconfig flags)] in
  match config_err o with
  | Some err => (t ++ [LoggerError "Loading config" err], Exit 1)
  | None =>
  let t := t ++ [GoWorker; NewPodWatcher (namespace flags)] in
  match pod_clientset_err o with
  | Some err => (t ++ [LoggerError "Creating pod connector" err], Exit 1)
  | None =>
  let t := t ++ [GoWatcher; NewMetricsLister (namespace flags)] in
  match metrics_clientset_err o with
  | Some err => (t ++ [LoggerError "Creating metrics connector" err], Exit 1)
  | None =>
  let t := t ++ [GoPoller; NewAdapter 10000000] in
  match adapter_err o with
  | Some err => (t ++ [LoggerError "Creating memory-backed cache" err], Exit 1)
  | None =>
  let t := t ++ [NewClient (10 * Minute) "opn"] in
  match client_err o with
  | Some err => (t ++ [LoggerError "Creating cache client" err], Exit 1)
  | None =>
  let t := t ++ [Handle "/"; ListenAndServe ":8080"] in
  match listen_err o with
  | Some err => (t ++ [LoggerError "Listening on HTTP endpoint" err], Exit 1)
  | None => (t ++ [Sync], Returns)
  end end end end end end end.





Section Cluster.

(** [runtime.Object] values and the conversion of the client library,
    [scheme.Scheme.Convert(in, &pod, nil)], which gives the pod as it is
    after the call and the error. *)
Variable RuntimeObject : Type.
Variable Scheme_Convert : RuntimeObject → apiv1.Pod → apiv1.Pod * option error.

(** The [Convert] method of the [Watcher] handed to [NewWatcher]. *)
Variable Convert : watch.Event RuntimeObject → Iface * option error.

(** What a goroutine does, and what its blocking statements hand it, in
    order. *)
Inductive Action :=
| Log (level : Level) (msg : string) (field : option string)
| CallWatch (opts : metav1.ListOptions)
| CallList (opts : metav1.ListOptions)
| EventReceived (e : watch.Event RuntimeObject)
| EventsClosed
| CloseReceived
| NewTicker (d : Z)
| TickReceived
| Printf (format : string) (arg : Iface)
| Send (v : Iface)
| Sleep (d : Z).

(** The case a [select] of [NewWatcher] takes. *)
Inductive Selected :=
| OnEvent (e : watch.Event RuntimeObject)
| OnEventsClosed
| OnClose.

(** What [watcher.Watch] returns: an error, or a stream, given by the
    cases the [select] statements on it take. *)
Inductive Watched :=
| WatchError (err : error)
| WatchStream (selects : list Selected).

(** How the loop labelled [W] ends: by [break W] with the value of [done],
    or not at all, blocked in its [select]. *)
Inductive Streamed :=
| BreakW (done : bool)
| InSelect.

Definition log_error (msg : string) (err : option error) : list Action :=
  match err with
  | Some e => [Log Error msg (Some e)]
  | None => []
  end.

(** The loop [W] of [NewWatcher]: the trace, the bookmark afterwards and
    the way it ended.  The inner [open] shadows the outer one, which stays
    true, so the loop is left by [break W] only. *)
Fixpoint events_loop (bookmark : string) (selects : list Selected)
    : list Action * string * Streamed :=
  match selects with
  | [] => ([], bookmark, InSelect)
  | OnEventsClosed :: _ =>
      ([EventsClosed; Log Info "Watcher disconnected" None], bookmark, BreakW false)
  | OnClose :: _ =>
      ([CloseReceived], bookmark, BreakW true)
  | OnEvent e :: rest =>
      if decide (watch.Type_ e = watch.Bookmark) then
        let '(pod, err) := Scheme_Convert (watch.Object e) apiv1.Pod_zero in
        let bookmark := apiv1.ResourceVersion pod in
        let '(t, b, s) := events_loop bookmark rest in
        (EventReceived e
           :: log_error "Converting bookmark" err
           ++ Log Debug "Bookmark received" (Some (apiv1.ResourceVersion pod))
           :: t, b, s)
      else
        let '(object, err) := Convert e in
        let '(t, b, s) := events_loop bookmark rest in
        (EventReceived e
           :: log_error "Converting object" err
           ++ Printf "NewWatcher: %+v\n" object
           :: t, b, s)
  end.

(** Where the goroutine of [NewWatcher] stands. *)
Inductive Watching :=
| Returned
| InWatch (bookmark : string)
| InEvents (bookmark : string).

(** The options of a connect attempt. *)
Definition watch_options (bookmark : string) : metav1.ListOptions :=
  let listOptions :=
    {| metav1.Watch := true; metav1.AllowWatchBookmarks := true;
       metav1.ResourceVersion := EmptyString |} in
  if decide (bookmark ≠ EmptyString) then
    {| metav1.Watch := metav1.Watch listOptions;
       metav1.AllowWatchBookmarks := metav1.AllowWatchBookmarks listOptions;
       metav1.ResourceVersion := bookmark |}
  else listOptions.

(** The outer loop of [NewWatcher], from a turn where [done] is false, over
    the results of the successive calls of [watcher.Watch]; when they are
    used up the goroutine is in the next call. *)
Fixpoint watcher_loop (bookmark : string) (script : list Watched)
    : list Action * Watching :=
  let connect :=
    [Log Info "Watcher connecting" None; CallWatch (watch_options bookmark)] in
  match script with
  | [] => (connect, InWatch bookmark)
  | WatchError err :: later =>
      let '(t, g) := watcher_loop bookmark later in
      (connect ++ log_error "Watcher connecting" (Some err)
         ++ Sleep (2 * Second) :: t, g)
  | WatchStream selects :: later =>
      let '(events, bookmark', s) := events_loop bookmark selects in
      match s with
      | InSelect => (connect ++ events, InEvents bookmark')
      | BreakW true => (connect ++ events ++ [Sleep (2 * Second)], Returned)
      | BreakW false =>
          let '(t, g) := watcher_loop bookmark' later in
          (connect ++ events ++ Sleep (2 * Second) :: t, g)
      end
  end.

(** [NewWatcher]: the goroutine starts with no bookmark. *)
Definition NewWatcher (script : list Watched) : list Action * Watching :=
  watcher_loop EmptyString script.

(** The case a [select] of [ShovelList] takes; a tick comes with what
    [lister.List] then returns. *)
Inductive Ticked :=
| OnTick (list : list Iface) (err : option error)
| OnPollerClose.

Inductive Polling :=
| PollerReturned
| InPollerSelect.

(** The loop of [ShovelList], threading the values sent on [sink] so far. *)
Fixpoint poller_loop (selects : list Ticked) (sink : list Iface)
    : list Action * list Iface * Polling :=
  let listOptions :=
    {| metav1.Watch := false; metav1.AllowWatchBookmarks := true;
       metav1.ResourceVersion := EmptyString |} in
  match selects with
  | [] => ([], sink, InPollerSelect)
  | OnTick list err :: rest =>
      let '(t, sink', g) := poller_loop rest sink in
      (TickReceived :: CallList listOptions
         :: log_error "Listing" err
         ++ map (Printf "NewListItem: %+v\n") list
         ++ t, sink', g)
  | OnPollerClose :: _ => ([CloseReceived], sink, PollerReturned)
  end.

(** The goroutine of [ShovelList]: the ticker, then the loop. *)
Definition ShovelList (selects : list Ticked) (sink : list Iface)
    : list Action * list Iface * Polling :=
  let '(t, sink', g) := poller_loop selects sink in
  (NewTicker (10 * Second) :: t, sink', g).


(** *** Reading a trace *)

(** The resume token a bookmark event carries: the [ResourceVersion] of
    the pod it converts to. *)
Definition resume_token (e : watch.Event RuntimeObject) : string :=
  apiv1.ResourceVersion (Scheme_Convert (watch.Object e) apiv1.Pod_zero).1.

(** The token an action shows, when it is the receipt of a bookmark event. *)
Definition bookmark_of (a : Action) : option string :=
  match a with
  | EventReceived e =>
      if decide (watch.Type_ e = watch.Bookmark) then Some (resume_token e) else None
  | _ => None
  end.

(** The last resume token observed in a trace, if any. *)
Definition last_bookmark (t : list Action) : option string :=
  last (omap bookmark_of t).

(** Connect attempts and waits, the rhythm of the reconnect loop. *)
Inductive Beat :=
| Connects
| Waits (d : Z).

Definition beat_of (a : Action) : option Beat :=
  match a with
  | CallWatch _ => Some Connects
  | Sleep d => Some (Waits d)
  | _ => None
  end.

Definition beats (t : list Action) : list Beat := omap beat_of t.

(** [n] rounds of a connect attempt followed by the backoff. *)
Fixpoint rounds (n : nat) : list Beat :=
  match n with
  | O => []
  | S n' => Connects :: Waits (2 * Second) :: rounds n'
  end.

(** The connect attempt a goroutine that has not returned is still in. *)
Definition pending (g : Watching) : list Beat :=
  match g with
  | Returned => []
  | InWatch _ | InEvents _ => [Connects]
  end.

(** The stream is closed by the peer before any shutdown request is taken. *)
Fixpoint peer_closes (selects : list Selected) : bool :=
  match selects with
  | OnEvent _ :: rest => peer_closes rest
  | OnEventsClosed :: _ => true
  | OnClose :: _ => false
  | [] => false
  end.

(** The connect attempt ends disconnected: it fails, or the peer closes. *)
Definition disconnects (w : Watched) : bool :=
  match w with
  | WatchError _ => true
  | WatchStream selects => peer_closes selects
  end.

Definition is_Send (a : Action) : bool :=
  match a with Send _ => true | _ => false end.

(** A trace resumes from [b] when each of its connect attempts carries the
    options built from the bookmark current at that point: [b] at first,
    then the token of the latest bookmark event received. *)
Fixpoint resumes (b : string) (t : list Action) : Prop :=
  match t with
  | [] => True
  | a :: t' =>
      match a with
      | CallWatch opts => opts = watch_options b
      | _ => True
      end ∧ resumes (default b (bookmark_of a)) t'
  end.

(** The objects a trace prints, in order. *)
Definition printed (t : list Action) : list Iface :=
  omap (λ a, match a with Printf _ arg => Some arg | _ => None end) t.

(** The events a trace receives, in order. *)
Definition received_events (t : list Action) : list (watch.Event RuntimeObject) :=
  omap (λ a, match a with EventReceived e => Some e | _ => None end) t.

(** What the reconnector prints for the events it receives: the object
    [Convert] gives for each event that is not a bookmark. *)
Definition objects_of (events : list (watch.Event RuntimeObject)) : list Iface :=
  (λ e, (Convert e).1)
    <$> filter (λ e, watch.Type_ e ≠ watch.Bookmark) events.

(** The events a stream delivers before it is closed or the shutdown
    request is taken. *)
Fixpoint events_taken (selects : list Selected) : list (watch.Event RuntimeObject) :=
  match selects with
  | OnEvent e :: rest => e :: events_taken rest
  | _ => []
  end.

(** The events the successive streams deliver to the loop: those of each
    stream, and those of the later ones when the peer closed it. *)
Fixpoint script_events (script : list Watched) : list (watch.Event RuntimeObject) :=
  match script with
  | [] => []
  | WatchError _ :: later => script_events later
  | WatchStream selects :: later =>
      events_taken selects
      ++ (if peer_closes selects then script_events later else [])
  end.

(** The options of the listings a trace asks for, in order. *)
Definition list_calls (t : list Action) : list metav1.ListOptions :=
  omap (λ a, match a with CallList opts => Some opts | _ => None end) t.

(** The listings the poller takes: those of the ticks before the first
    shutdown request. *)
Fixpoint listings (selects : list Ticked) : list (list Iface * option error) :=
  match selects with
  | OnTick list err :: rest => (list, err) :: listings rest
  | OnPollerClose :: _ => []
  | [] => []
  end.

(** The items of a [PodMetricsList], and the conversion of one of them to
    [interface{}]. *)
Variable PodMetrics : Type.
Variable PodMetrics_any : PodMetrics → Iface.

(** [MetricsLister.List], from what the [List] of the clientset returns:
    the error, or the list with its [Items].  [make] gives a slice of nil
    interfaces of the length of [Items]; the [range] loop stores each item at
    its index. *)
Definition MetricsLister_List (Items : list PodMetrics) (err : option error)
    : list Iface * option error :=
  match err with
  | Some e => ([], Some e)
  | None =>
      let result := replicate (length Items) INil in
      let result :=
        foldl (λ result kv, <[kv.1 := PodMetrics_any kv.2]> result)
              result (imap pair Items) in
      (result, None)
  end.

(** A tick of [ShovelList] when its lister is a [MetricsLister]. *)
Definition MetricsLister_tick (listed : list PodMetrics * option error) : Ticked :=
  let '(list, err) := MetricsLister_List listed.1 listed.2 in OnTick list err.

(** What must come next in the trace once the loop is disconnected or has
    taken the shutdown request: after the error of a failed connect, the
    wait and the next connect attempt; after the peer's close, the log line,
    the wait and the next connect attempt; after the shutdown request, the
    wait and nothing more. *)
Definition follows (a : Action) (next : list Action) : Prop :=
  match a with
  | Log Error msg _ =>
      msg = "Watcher connecting" →
      ∃ opts rest,
        next = Sleep (2 * Second)
               :: Log Info "Watcher connecting" None :: CallWatch opts :: rest
  | EventsClosed =>
      ∃ opts rest,
        next = Log Info "Watcher disconnected" None
               :: Sleep (2 * Second)
               :: Log Info "Watcher connecting" None :: CallWatch opts :: rest
  | CloseReceived => next = [Sleep (2 * Second)]
  | _ => True
  end.

Fixpoint paced (t : list Action) : Prop :=
  match t with
  | [] => True
  | a :: next => follows a next ∧ paced next
  end.

(** The actions of the loop [W] that put no demand on what comes next. *)
Definition quiet (a : Action) : Prop := ∀ next, follows a next.

(** The shutdown request is taken on the stream, before the peer closes
    it. *)
Fixpoint takes_shutdown (selects : list Selected) : bool :=
  match selects with
  | OnEvent _ :: rest => takes_shutdown rest
  | OnClose :: _ => true
  | OnEventsClosed :: _ => false
  | [] => false
  end.

(** The resource versions of the connect attempts of a trace, in order. *)
Definition resource_versions (t : list Action) : list string :=
  omap (λ a, match a with
             | CallWatch opts => Some (metav1.ResourceVersion opts)
             | _ => None
             end) t.

(** ** Properties of the watch reconnector *)

Lemma watch_options_ResourceVersion b :
  metav1.ResourceVersion (watch_options b) = b.
Proof.
  unfold watch_options. case_decide as Hb; simpl; [done|].
  destruct (decide (b = EmptyString)) as [->|Hne]; [done|].
  by destruct Hb.
Qed.

Lemma watch_options_flags b :
  metav1.Watch (watch_options b) = true ∧
  metav1.AllowWatchBookmarks (watch_options b) = true.
Proof. unfold watch_options. by case_decide. Qed.

Lemma last_bookmark_cons b a t :
  default (default b (bookmark_of a)) (last_bookmark t)
  = default b (last_bookmark (a :: t)).
Proof.
  unfold last_bookmark. csimpl.
  destruct (bookmark_of a) as [tok|]; csimpl; [|done].
  rewrite last_cons. by destruct (last (omap bookmark_of t)).
Qed.

Lemma resumes_app b t1 t2 :
  resumes b (t1 ++ t2)
  ↔ resumes b t1 ∧ resumes (default b (last_bookmark t1)) t2.
Proof.
  revert b. induction t1 as [|a t1 IH]; intros b; simpl.
  - unfold last_bookmark; simpl. tauto.
  - rewrite IH, last_bookmark_cons. tauto.
Qed.

Lemma resumes_log_error b msg err t :
  resumes b (log_error msg err ++ t) ↔ resumes b t.
Proof. destruct err; simpl; tauto. Qed.

Lemma last_bookmark_log_error msg err t :
  last_bookmark (log_error msg err ++ t) = last_bookmark t.
Proof. by destruct err. Qed.

(** The loop [W] makes no connect attempt, and leaves in [bookmark] the
    last token it received. *)
Lemma events_loop_resumes selects : ∀ b t b' s,
  events_loop b selects = (t, b', s) →
  resumes b t ∧ default b (last_bookmark t) = b'.
Proof.
  induction selects as [|sel rest IH]; intros b t b' s Hrun; simpl in Hrun.
  - by simplify_eq.
  - destruct sel as [e| |]; [|by simplify_eq..].
    case_decide as Hty.
    + destruct (Scheme_Convert _ _) as [pod err] eqn:Hconv.
      destruct (events_loop _ rest) as [[t0 b0] s0] eqn:Hrest.
      simplify_eq. apply IH in Hrest as [Hres Hb].
      assert (bookmark_of (EventReceived e) = Some (apiv1.ResourceVersion pod))
        as Htok.
      { simpl. rewrite decide_True by done. unfold resume_token.
        by rewrite Hconv. }
      split.
      * simpl resumes at 1. fold (bookmark_of (EventReceived e)).
        rewrite Htok, resumes_log_error. simpl. tauto.
      * rewrite <-last_bookmark_cons, Htok. simpl.
        by rewrite last_bookmark_log_error, <-last_bookmark_cons.
    + destruct (Convert e) as [object err].
      destruct (events_loop _ rest) as [[t0 b0] s0] eqn:Hrest.
      simplify_eq. apply IH in Hrest as [Hres Hb].
      assert (bookmark_of (EventReceived e) = None) as Htok.
      { simpl. by rewrite decide_False. }
      split.
      * simpl resumes at 1. fold (bookmark_of (EventReceived e)).
        rewrite Htok, resumes_log_error. simpl. tauto.
      * rewrite <-last_bookmark_cons, Htok. simpl.
        by rewrite last_bookmark_log_error, <-last_bookmark_cons.
Qed.

Lemma watcher_loop_resumes script : ∀ b,
  resumes b (watcher_loop b script).1.
Proof.
  induction script as [|w later IH]; intros b; simpl.
  - done.
  - destruct w as [err|selects].
    + specialize (IH b). destruct (watcher_loop b later) as [t g].
      simpl in *. tauto.
    + destruct (events_loop b selects) as [[events b'] s] eqn:Hev.
      apply events_loop_resumes in Hev as [Hres Hb].
      destruct s as [[|]|].
      * simpl. repeat split; try done.
        apply resumes_app. split; [done|]. simpl. done.
      * specialize (IH b'). destruct (watcher_loop b' later) as [t g].
        simpl in *. repeat split; try done.
        apply resumes_app. split; [done|]. simpl. rewrite Hb. tauto.
      * simpl. tauto.
Qed.

Lemma resumes_connect b pre opts post :
  resumes b (pre ++ CallWatch opts :: post) →
  opts = watch_options (default b (last_bookmark pre)).
Proof. rewrite resumes_app. simpl. tauto. Qed.

(** X26. Every connect attempt of the reconnect loop asks for a watch with
    bookmarks, and carries as its resource version the one the pod had after
    the conversion of the last bookmark event received before it, whatever
    that conversion returned: an empty one leaves the request without
    resource version.  Before any bookmark event the resource version is
    unset. *)
Theorem connect_carries_last_bookmark_version script pre opts post :
  (NewWatcher script).1 = pre ++ CallWatch opts :: post →
  (∀ token, last_bookmark pre = Some token →
     metav1.ResourceVersion opts = token) ∧
  (last_bookmark pre = None →
     metav1.ResourceVersion opts = EmptyString) ∧
  metav1.Watch opts = true ∧ metav1.AllowWatchBookmarks opts = true.
Proof.
  intros Htrace. unfold NewWatcher in Htrace.
  pose proof (watcher_loop_resumes script EmptyString) as Hres.
  rewrite Htrace in Hres. apply resumes_connect in Hres as ->.
  rewrite watch_options_ResourceVersion.
  split; [|split; [|apply watch_options_flags]].
  - by intros token ->.
  - by intros ->.
Qed.

(** What the loop [W] does with one event, and how it goes on. *)
Lemma events_loop_cons b e rest :
  events_loop b (OnEvent e :: rest) =
    let handled :=
      if decide (watch.Type_ e = watch.Bookmark) then
        log_error "Converting bookmark"
                  (Scheme_Convert (watch.Object e) apiv1.Pod_zero).2
        ++ [Log Debug "Bookmark received" (Some (resume_token e))]
      else
        log_error "Converting object" (Convert e).2
        ++ [Printf "NewWatcher: %+v\n" (Convert e).1] in
    let b1 :=
      if decide (watch.Type_ e = watch.Bookmark) then resume_token e else b in
    let '(t, b', s) := events_loop b1 rest in
    (EventReceived e :: handled ++ t, b', s).
Proof.
  simpl. unfold resume_token. case_decide.
  - destruct (Scheme_Convert _ _) as [pod err]. simpl.
    destruct (events_loop _ rest) as [[t b'] s].
    by rewrite <-(assoc_L (++)).
  - destruct (Convert e) as [object err]. simpl.
    destruct (events_loop _ rest) as [[t b'] s].
    by rewrite <-(assoc_L (++)).
Qed.

Lemma beats_app t1 t2 : beats (t1 ++ t2) = beats t1 ++ beats t2.
Proof. apply omap_app. Qed.

Lemma beats_log_error msg err : beats (log_error msg err) = [].
Proof. by destruct err. Qed.

(** The loop [W] neither connects nor sleeps. *)
Lemma events_loop_beats selects : ∀ b, beats (events_loop b selects).1.1 = [].
Proof.
  induction selects as [|sel rest IH]; intros b; simpl; [done|].
  destruct sel as [e| |]; [|done..].
  case_decide.
  - destruct (Scheme_Convert _ _) as [pod err].
    specialize (IH (apiv1.ResourceVersion pod)).
    destruct (events_loop _ rest) as [[t0 b0] s0]. cbn [fst snd] in *.
    change (EventReceived e :: ?l) with ([EventReceived e] ++ l).
    change (?a :: t0) with ([a] ++ t0).
    by rewrite !beats_app, beats_log_error, IH.
  - destruct (Convert e) as [object err].
    specialize (IH b).
    destruct (events_loop _ rest) as [[t0 b0] s0]. cbn [fst snd] in *.
    change (EventReceived e :: ?l) with ([EventReceived e] ++ l).
    change (?a :: t0) with ([a] ++ t0).
    by rewrite !beats_app, beats_log_error, IH.
Qed.

(** The loop [W] ends with [done] set only by taking the shutdown request. *)
Lemma events_loop_done selects : ∀ b,
  (events_loop b selects).2 = BreakW true →
  CloseReceived ∈ (events_loop b selects).1.1.
Proof.
  induction selects as [|sel rest IH]; intros b; simpl; [done|].
  destruct sel as [e| |]; [|done|intros _; set_solver].
  case_decide.
  - destruct (Scheme_Convert _ _) as [pod err].
    specialize (IH (apiv1.ResourceVersion pod)).
    destruct (events_loop _ rest) as [[t0 b0] s0]. simpl in *.
    intros Hs. apply IH in Hs. set_solver.
  - destruct (Convert e) as [object err].
    specialize (IH b).
    destruct (events_loop _ rest) as [[t0 b0] s0]. simpl in *.
    intros Hs. apply IH in Hs. set_solver.
Qed.

Lemma events_loop_peer_closes selects : ∀ b,
  peer_closes selects = true → (events_loop b selects).2 = BreakW false.
Proof.
  induction selects as [|sel rest IH]; intros b; simpl; [done|].
  destruct sel as [e| |]; [|done..].
  intros Hrest. case_decide.
  - destruct (Scheme_Convert _ _) as [pod err].
    specialize (IH (apiv1.ResourceVersion pod) Hrest).
    by destruct (events_loop _ rest) as [[t0 b0] s0].
  - destruct (Convert e) as [object err].
    specialize (IH b Hrest).
    by destruct (events_loop _ rest) as [[t0 b0] s0].
Qed.

Lemma beats_connect b :
  beats [Log Info "Watcher connecting" None; CallWatch (watch_options b)]
  = [Connects].
Proof. done. Qed.

(** The rhythm of the loop: connect, wait two seconds, connect, ... *)
Lemma watcher_loop_beats script : ∀ b,
  ∃ n, beats (watcher_loop b script).1
       = rounds n ++ pending (watcher_loop b script).2.
Proof.
  induction script as [|w later IH]; intros b; simpl.
  - by exists 0%nat.
  - destruct w as [err|selects].
    + destruct (IH b) as [n Hn].
      destruct (watcher_loop b later) as [t g]. simpl in *.
      exists (S n). simpl. by rewrite <-Hn.
    + pose proof (events_loop_beats selects b) as Hev.
      destruct (events_loop b selects) as [[events b'] s]. simpl in Hev.
      destruct s as [[|]|].
      * exists 1%nat. simpl.
        change (omap beat_of ?l) with (beats l).
        by rewrite beats_app, Hev.
      * destruct (IH b') as [n Hn].
        destruct (watcher_loop b' later) as [t g]. simpl in *.
        exists (S n). simpl.
        change (omap beat_of ?l) with (beats l).
        change (Sleep ?d :: t) with ([Sleep d] ++ t).
        by rewrite !beats_app, Hev, Hn.
      * exists 0%nat. simpl.
        change (omap beat_of ?l) with (beats l). by rewrite Hev.
Qed.

(** The loop returns only after the shutdown request has been taken. *)
Lemma watcher_loop_returned script : ∀ b,
  (watcher_loop b script).2 = Returned →
  CloseReceived ∈ (watcher_loop b script).1.
Proof.
  induction script as [|w later IH]; intros b; simpl; [done|].
  destruct w as [err|selects].
  - specialize (IH b). destruct (watcher_loop b later) as [t g]. simpl in *.
    intros Hg. apply IH in Hg. set_solver.
  - pose proof (events_loop_done selects b) as Hev.
    destruct (events_loop b selects) as [[events b'] s]. simpl in Hev.
    destruct s as [[|]|]; simpl.
    + intros _. specialize (Hev eq_refl). set_solver.
    + specialize (IH b'). destruct (watcher_loop b' later) as [t g].
      simpl in *. intros Hg. apply IH in Hg. set_solver.
    + done.
Qed.

(** As long as every connect attempt ends disconnected, each is followed
    by the backoff and by a further attempt. *)
Lemma watcher_loop_retries script : ∀ b,
  Forall (λ w, disconnects w = true) script →
  beats (watcher_loop b script).1 = rounds (length script) ++ [Connects] ∧
  ∃ b', (watcher_loop b script).2 = InWatch b'.
Proof.
  induction script as [|w later IH]; intros b Hall; simpl.
  - eauto.
  - apply Forall_cons in Hall as [Hw Hlater].
    destruct w as [err|selects]; simpl in Hw.
    + destruct (IH b Hlater) as [Hn Hg].
      destruct (watcher_loop b later) as [t g]. simpl in *.
      by rewrite <-Hn.
    + pose proof (events_loop_beats selects b) as Hev.
      pose proof (events_loop_peer_closes selects b Hw) as Hs.
      destruct (events_loop b selects) as [[events b'] s].
      simpl in Hev, Hs. subst s.
      destruct (IH b' Hlater) as [Hn Hg].
      destruct (watcher_loop b' later) as [t g]. simpl in *.
      split; [|done].
      change (omap beat_of ?l) with (beats l).
      change (Sleep ?d :: t) with ([Sleep d] ++ t).
      by rewrite !beats_app, Hev, Hn.
Qed.

Lemma paced_split pre a post : paced (pre ++ a :: post) → follows a post.
Proof.
  induction pre as [|x pre IH]; simpl; [tauto|]. intros [_ Hrest]. by apply IH.
Qed.

Lemma paced_quiet_app t1 t2 : Forall quiet t1 → paced t2 → paced (t1 ++ t2).
Proof.
  induction 1 as [|a t1 Ha _ IH]; intros Ht2; simpl; [done|].
  split; [apply Ha|by apply IH].
Qed.

Lemma quiet_log_error msg err :
  msg ≠ "Watcher connecting" → Forall quiet (log_error msg err).
Proof.
  intros Hmsg. destruct err; repeat constructor. intros next Heq. done.
Qed.

(** The trace of a turn of the reconnect loop starts with its connect
    attempt. *)
Lemma watcher_loop_head script b :
  ∃ rest,
    (watcher_loop b script).1
    = Log Info "Watcher connecting" None :: CallWatch (watch_options b) :: rest.
Proof.
  destruct script as [|[err|selects] later]; simpl.
  - by eexists.
  - destruct (watcher_loop b later) as [t g]. by eexists.
  - destruct (events_loop b selects) as [[events b'] s].
    destruct s as [[|]|]; [by eexists| |by eexists].
    destruct (watcher_loop b' later) as [t g]. by eexists.
Qed.

(** The loop [W], followed by what its way of ending calls for, is paced. *)
Lemma events_loop_paced selects : ∀ b tail,
  paced tail →
  match (events_loop b selects).2 with
  | BreakW false =>
      ∃ opts rest,
        tail = Sleep (2 * Second)
               :: Log Info "Watcher connecting" None :: CallWatch opts :: rest
  | BreakW true => tail = [Sleep (2 * Second)]
  | InSelect => True
  end →
  paced ((events_loop b selects).1.1 ++ tail).
Proof.
  induction selects as [|sel rest IH]; intros b tail Htail Hend.
  - done.
  - destruct sel as [e| |];
      [|simpl in *; destruct Hend as (opts & rest' & ->); by eauto
       |simpl in *; by subst tail].
    revert Hend. rewrite events_loop_cons. cbv zeta.
    set (b1 := if decide _ then _ else b). specialize (IH b1 tail Htail).
    destruct (events_loop b1 rest) as [[t b'] s]. cbn [fst snd] in *.
    intros Hend. specialize (IH Hend).
    split; [done|]. rewrite <-(assoc_L (++)).
    apply paced_quiet_app; [|done].
    case_decide; (apply Forall_app; split;
      [by apply quiet_log_error|by repeat constructor]).
Qed.

Lemma watcher_loop_paced script : ∀ b, paced (watcher_loop b script).1.
Proof.
  induction script as [|w later IH]; intros b; simpl; [done|].
  destruct w as [err|selects].
  - specialize (IH b). destruct (watcher_loop_head later b) as [rest Hhead].
    destruct (watcher_loop b later) as [t g]. simpl in *.
    repeat split; [|done]. intros _. subst t. by eexists _, _.
  - pose proof (events_loop_paced selects b) as Hev.
    destruct (events_loop b selects) as [[events b'] s]. cbn [fst snd] in Hev.
    destruct s as [[|]|]; simpl.
    + repeat split; [done..|]. by apply Hev.
    + specialize (IH b'). destruct (watcher_loop_head later b') as [rest Hhead].
      destruct (watcher_loop b' later) as [t g]. simpl in *.
      repeat split; [done..|]. apply Hev; [done|]. subst t. by eexists _, _.
    + repeat split; [done..|].
      rewrite <-(right_id_L [] (++) events). by apply Hev.
Qed.

Lemma not_close_log_error msg err : CloseReceived ∉ log_error msg err.
Proof.
  destruct err; simpl; [|apply not_elem_of_nil].
  intros [?|?%elem_of_nil]%elem_of_cons; done.
Qed.

(** The shutdown request is in the trace of the loop [W] only when the loop
    ends by it. *)
Lemma events_loop_close selects : ∀ b,
  CloseReceived ∈ (events_loop b selects).1.1 →
  (events_loop b selects).2 = BreakW true.
Proof.
  induction selects as [|sel rest IH]; intros b.
  - simpl. by intros ?%elem_of_nil.
  - destruct sel as [e| |]; [| |done].
    + rewrite events_loop_cons. cbv zeta.
      set (b1 := if decide _ then _ else b). specialize (IH b1).
      destruct (events_loop b1 rest) as [[t b'] s]. cbn [fst snd] in *.
      rewrite elem_of_cons, elem_of_app. intros [?|[Hin|?]]; [done| |by apply IH].
      exfalso. revert Hin. case_decide; rewrite elem_of_app;
        (intros [?%not_close_log_error|Hin]; [done|]);
        by apply list_elem_of_singleton in Hin.
    + simpl. rewrite !elem_of_cons.
      intros [?|[?|?%elem_of_nil]]; done.
Qed.

(** Once the shutdown request is taken the goroutine returns. *)
Lemma watcher_loop_close script : ∀ b,
  CloseReceived ∈ (watcher_loop b script).1 → (watcher_loop b script).2 = Returned.
Proof.
  induction script as [|w later IH]; intros b; simpl.
  - rewrite !elem_of_cons. intros [?|[?|?%elem_of_nil]]; done.
  - destruct w as [err|selects].
    + specialize (IH b). destruct (watcher_loop b later) as [t g]. simpl in *.
      rewrite !elem_of_cons. intros [?|[?|[?|[?|?]]]]; try done. by apply IH.
    + pose proof (events_loop_close selects b) as Hev.
      destruct (events_loop b selects) as [[events b'] s]. cbn [fst snd] in Hev.
      destruct s as [[|]|]; simpl; [done| |].
      * specialize (IH b'). destruct (watcher_loop b' later) as [t g].
        simpl in *. rewrite !elem_of_cons, elem_of_app, elem_of_cons.
        intros [?|[?|[?%Hev|[?|?]]]]; try done. by apply IH.
      * rewrite !elem_of_cons. intros [?|[?|?%Hev]]; done.
Qed.

Lemma events_loop_takes_shutdown selects : ∀ b,
  takes_shutdown selects = true → (events_loop b selects).2 = BreakW true.
Proof.
  induction selects as [|sel rest IH]; intros b; simpl; [done|].
  destruct sel as [e| |]; [|done..].
  intros Hrest. case_decide.
  - destruct (Scheme_Convert _ _) as [pod err].
    specialize (IH (apiv1.ResourceVersion pod) Hrest).
    by destruct (events_loop _ rest) as [[t0 b0] s0].
  - destruct (Convert e) as [object err].
    specialize (IH b Hrest).
    by destruct (events_loop _ rest) as [[t0 b0] s0].
Qed.

(** The shutdown request ends the retries: after attempts that ended
    disconnected, a stream on which it is taken is the last, whatever
    [watcher.Watch] would return afterwards. *)
Lemma watcher_loop_shutdown before selects after : ∀ b,
  Forall (λ w, disconnects w = true) before →
  takes_shutdown selects = true →
  (watcher_loop b (before ++ WatchStream selects :: after)).2 = Returned ∧
  beats (watcher_loop b (before ++ WatchStream selects :: after)).1
  = rounds (S (length before)).
Proof.
  induction before as [|w later IH]; intros b Hall Hshut; simpl.
  - pose proof (events_loop_beats selects b) as Hev.
    pose proof (events_loop_takes_shutdown selects b Hshut) as Hs.
    destruct (events_loop b selects) as [[events b'] s].
    simpl in Hev, Hs. subst s. simpl. split; [done|].
    change (omap beat_of ?l) with (beats l).
    by rewrite beats_app, Hev.
  - apply Forall_cons in Hall as [Hw Hlater].
    destruct w as [err|sel]; simpl in Hw.
    + destruct (IH b Hlater Hshut) as [Hg Hn].
      destruct (watcher_loop b _) as [t g]. simpl in *.
      by rewrite <-Hn.
    + pose proof (events_loop_beats sel b) as Hev.
      pose proof (events_loop_peer_closes sel b Hw) as Hs.
      destruct (events_loop b sel) as [[events b'] s].
      simpl in Hev, Hs. subst s.
      destruct (IH b' Hlater Hshut) as [Hg Hn].
      destruct (watcher_loop b' _) as [t g]. simpl in *.
      split; [done|].
      change (omap beat_of ?l) with (beats l).
      change (Sleep ?d :: t) with ([Sleep d] ++ t).
      by rewrite !beats_app, Hev, Hn.
Qed.

(** C6. In the trace of the reconnect loop, connect attempts and waits
    alternate, every wait being of two seconds.  The error of a failed
    connect is followed at once by the wait and then by the next connect
    attempt; the peer's close of the stream by its log line, the wait and
    the next connect attempt.  The loop returns only after taking the
    shutdown request: while every attempt ends disconnected it makes a
    further attempt after each of them, and a shutdown request taken on a
    stream is followed by the wait and the return, with no further
    attempt. *)
Theorem backoff_is_fixed script trace g :
  NewWatcher script = (trace, g) →
  (∃ n, beats trace = rounds n ++ pending g) ∧
  (g = Returned → CloseReceived ∈ trace) ∧
  (Forall (λ w, disconnects w = true) script →
     beats trace = rounds (length script) ++ [Connects] ∧
     ∃ b, g = InWatch b) ∧
  (∀ pre err post,
     trace = pre ++ Log Error "Watcher connecting" (Some err) :: post →
     ∃ opts rest,
       post = Sleep (2 * Second)
              :: Log Info "Watcher connecting" None :: CallWatch opts :: rest) ∧
  (∀ pre post,
     trace = pre ++ EventsClosed :: post →
     ∃ opts rest,
       post = Log Info "Watcher disconnected" None
              :: Sleep (2 * Second)
              :: Log Info "Watcher connecting" None :: CallWatch opts :: rest) ∧
  (∀ pre post,
     trace = pre ++ CloseReceived :: post →
     post = [Sleep (2 * Second)] ∧ g = Returned) ∧
  (∀ before selects after,
     script = before ++ WatchStream selects :: after →
     Forall (λ w, disconnects w = true) before →
     takes_shutdown selects = true →
     g = Returned ∧ beats trace = rounds (S (length before))).
Proof.
  unfold NewWatcher. intros Hrun.
  pose proof (watcher_loop_beats script EmptyString) as Hbeats.
  pose proof (watcher_loop_returned script EmptyString) as Hret.
  pose proof (watcher_loop_retries script EmptyString) as Hretry.
  pose proof (watcher_loop_paced script EmptyString) as Hpaced.
  pose proof (watcher_loop_close script EmptyString) as Hclose.
  rewrite Hrun in Hbeats, Hret, Hretry, Hpaced, Hclose. simpl in *.
  split; [done|]. split; [done|]. split; [done|].
  split; [|split; [|split]].
  - intros pre err post ->. apply paced_split in Hpaced. by apply Hpaced.
  - intros pre post ->. by apply paced_split in Hpaced.
  - intros pre post ->. split; [by apply paced_split in Hpaced|].
    apply Hclose. rewrite elem_of_app, elem_of_cons. auto.
  - intros before selects after -> Hall Hshut.
    pose proof (watcher_loop_shutdown before selects after EmptyString
                  Hall Hshut) as Hend.
    rewrite Hrun in Hend. done.
Qed.

(** ** Properties of the list poller *)

Lemma poller_loop_sink selects : ∀ sink,
  (poller_loop selects sink).1.2 = sink.
Proof.
  induction selects as [|sel rest IH]; intros sink; simpl; [done|].
  destruct sel as [list err|]; [|done].
  specialize (IH sink). by destruct (poller_loop rest sink) as [[t s] g].
Qed.

Lemma poller_loop_no_send selects : ∀ sink,
  Forall (λ a, is_Send a = false) (poller_loop selects sink).1.1.
Proof.
  induction selects as [|sel rest IH]; intros sink; simpl; [done|].
  destruct sel as [list err|]; [|by repeat constructor].
  specialize (IH sink). destruct (poller_loop rest sink) as [[t s] g].
  simpl in *. repeat constructor.
  apply Forall_app. split; [by destruct err; repeat constructor|].
  apply Forall_app. split; [|done].
  apply Forall_fmap. by apply Forall_true.
Qed.

(** C7. The list poller sends nothing on [sink]: whatever ticks and
    listings it is given, the values sent on the channel are those sent
    before it ran, its trace has no send, and so the worker of the table,
    fed from the channel, ends with the same table. *)
Theorem poller_never_submits selects sink trace sink' g lines :
  ShovelList selects sink = (trace, sink', g) →
  sink' = sink ∧
  Forall (λ a, is_Send a = false) trace ∧
  worker lines (RecvValue <$> sink') = worker lines (RecvValue <$> sink).
Proof.
  unfold ShovelList. intros Hrun.
  pose proof (poller_loop_sink selects sink) as Hsink.
  pose proof (poller_loop_no_send selects sink) as Hsend.
  destruct (poller_loop selects sink) as [[t s] g0].
  simplify_eq. simpl in *. subst.
  split; [done|]. split; [by constructor|done].
Qed.

(** ** Further properties of the watch reconnector *)

Lemma no_send_log_error msg err :
  Forall (λ a, is_Send a = false) (log_error msg err).
Proof. destruct err; by repeat constructor. Qed.

Lemma events_loop_no_send selects : ∀ b,
  Forall (λ a, is_Send a = false) (events_loop b selects).1.1.
Proof.
  induction selects as [|sel rest IH]; intros b; [by constructor|].
  destruct sel as [e| |]; [|by repeat constructor..].
  rewrite events_loop_cons. cbv zeta.
  set (b1 := if decide _ then _ else b). specialize (IH b1).
  destruct (events_loop b1 rest) as [[t b'] s]. simpl in *.
  constructor; [done|]. apply Forall_app. split; [|done].
  case_decide; apply Forall_app; (split; [apply no_send_log_error|]);
    by repeat constructor.
Qed.

(** X14. The watch reconnector sends nothing on [sink] either: the events
    it receives are logged or printed, and its trace has no send. *)
Theorem watcher_never_sends script :
  Forall (λ a, is_Send a = false) (NewWatcher script).1.
Proof.
  unfold NewWatcher. generalize EmptyString as b.
  induction script as [|w later IH]; intros b; simpl.
  - by repeat constructor.
  - destruct w as [err|selects].
    + specialize (IH b). destruct (watcher_loop b later) as [t g].
      simpl in *. by repeat constructor.
    + pose proof (events_loop_no_send selects b) as Hev.
      destruct (events_loop b selects) as [[events b'] s]. simpl in Hev.
      destruct s as [[|]|]; simpl.
      * repeat constructor. apply Forall_app. split; [done|].
        by repeat constructor.
      * specialize (IH b'). destruct (watcher_loop b' later) as [t g].
        simpl in *. repeat constructor. apply Forall_app. split; [done|].
        by constructor.
      * by repeat constructor.
Qed.

Lemma events_loop_done_last selects : ∀ b,
  (events_loop b selects).2 = BreakW true →
  ∃ t, (events_loop b selects).1.1 = t ++ [CloseReceived].
Proof.
  induction selects as [|sel rest IH]; intros b; [done|].
  destruct sel as [e| |]; [|done|by exists []].
  rewrite events_loop_cons. cbv zeta.
  set (b1 := if decide _ then _ else b). specialize (IH b1).
  destruct (events_loop b1 rest) as [[t b'] s]. simpl in *.
  intros Hs. destruct (IH Hs) as [t0 ->].
  eexists (EventReceived e :: _ ++ t0). simpl. by rewrite <-(assoc_L (++)).
Qed.

(** X15. The shutdown request does not cut the backoff short: a goroutine
    that has returned took the request, slept its two seconds and left the
    loop without a further connect attempt. *)
Theorem shutdown_sleeps_then_returns script :
  (NewWatcher script).2 = Returned →
  ∃ t, (NewWatcher script).1 = t ++ [CloseReceived; Sleep (2 * Second)].
Proof.
  unfold NewWatcher. generalize EmptyString as b.
  induction script as [|w later IH]; intros b; simpl; [done|].
  destruct w as [err|selects].
  - specialize (IH b). destruct (watcher_loop b later) as [t g]. simpl in *.
    intros Hg. destruct (IH Hg) as [t0 ->].
    by eexists (_ :: _ :: _ :: _ :: t0).
  - pose proof (events_loop_done_last selects b) as Hev.
    destruct (events_loop b selects) as [[events b'] s]. simpl in Hev.
    destruct s as [[|]|]; simpl; [| |done].
    + intros _. destruct (Hev eq_refl) as [t0 ->].
      eexists (_ :: _ :: t0). simpl. by rewrite <-(assoc_L (++)).
    + specialize (IH b'). destruct (watcher_loop b' later) as [t g].
      simpl in *. intros Hg. destruct (IH Hg) as [t0 ->].
      eexists (_ :: _ :: events ++ _ :: t0). simpl.
      by rewrite <-(assoc_L (++)).
Qed.

Lemma printed_app t1 t2 : printed (t1 ++ t2) = printed t1 ++ printed t2.
Proof. apply omap_app. Qed.

Lemma received_events_app t1 t2 :
  received_events (t1 ++ t2) = received_events t1 ++ received_events t2.
Proof. apply omap_app. Qed.

Lemma printed_log_error msg err : printed (log_error msg err) = [].
Proof. by destruct err. Qed.

Lemma received_events_log_error msg err :
  received_events (log_error msg err) = [].
Proof. by destruct err. Qed.

Lemma events_loop_printed selects : ∀ b,
  printed (events_loop b selects).1.1
  = objects_of (received_events (events_loop b selects).1.1).
Proof.
  induction selects as [|sel rest IH]; intros b; [done|].
  destruct sel as [e| |]; [|done..].
  rewrite events_loop_cons. cbv zeta.
  set (b1 := if decide _ then _ else b). specialize (IH b1).
  destruct (events_loop b1 rest) as [[t b'] s]. cbn [fst snd] in *.
  change (EventReceived e :: ?l) with ([EventReceived e] ++ l).
  rewrite !printed_app, !received_events_app, IH.
  unfold objects_of. case_decide as Hty.
  - rewrite printed_app, received_events_app.
    rewrite printed_log_error, received_events_log_error. csimpl.
    rewrite filter_cons_False by (by intros []). done.
  - rewrite printed_app, received_events_app.
    rewrite printed_log_error, received_events_log_error. csimpl.
    rewrite filter_cons_True by done. done.
Qed.

(** X16. Each event received that is not a bookmark is printed once, in the
    order received, as the object [Convert] returns for it, also when
    [Convert] returns an error; bookmarks are not printed. *)
Theorem data_events_are_printed script :
  printed (NewWatcher script).1
  = objects_of (received_events (NewWatcher script).1).
Proof.
  unfold NewWatcher. generalize EmptyString as b.
  induction script as [|w later IH]; intros b; simpl; [done|].
  destruct w as [err|selects].
  - specialize (IH b). destruct (watcher_loop b later) as [t g]. simpl in *.
    done.
  - pose proof (events_loop_printed selects b) as Hev.
    destruct (events_loop b selects) as [[events b'] s]. cbn [fst snd] in Hev.
    destruct s as [[|]|]; cbn [fst snd].
    + change (?a :: ?c :: events ++ ?l) with ([a; c] ++ events ++ l).
      rewrite !printed_app, !received_events_app, Hev. simpl.
      by rewrite !(right_id_L [] (++)).
    + specialize (IH b'). destruct (watcher_loop b' later) as [t g].
      cbn [fst snd] in *.
      change (?a :: ?c :: events ++ ?d :: t) with ([a; c] ++ events ++ [d] ++ t).
      rewrite !printed_app, !received_events_app, Hev, IH. simpl.
      unfold objects_of. by rewrite filter_app, fmap_app.
    + done.
Qed.

Lemma events_loop_received selects : ∀ b,
  received_events (events_loop b selects).1.1 = events_taken selects.
Proof.
  induction selects as [|sel rest IH]; intros b; [done|].
  destruct sel as [e| |]; [|done..].
  rewrite events_loop_cons. cbv zeta.
  set (b1 := if decide _ then _ else b). specialize (IH b1).
  destruct (events_loop b1 rest) as [[t b'] s]. cbn [fst snd] in *.
  change (EventReceived e :: ?l) with ([EventReceived e] ++ l).
  rewrite !received_events_app, IH.
  case_decide; rewrite received_events_app, received_events_log_error; done.
Qed.

Lemma events_loop_not_closed selects : ∀ b,
  peer_closes selects = false → (events_loop b selects).2 ≠ BreakW false.
Proof.
  induction selects as [|sel rest IH]; intros b; [done|].
  destruct sel as [e| |]; [|done..].
  rewrite events_loop_cons. cbv zeta.
  set (b1 := if decide _ then _ else b). specialize (IH b1).
  destruct (events_loop b1 rest) as [[t b'] s]. simpl in *. done.
Qed.

(** X17. Every event of a stream, up to its closing or the shutdown
    request, is received, whatever errors the conversions gave, and the
    events of the next sessions follow when the peer closed the stream;
    failed connect attempts lose no event. *)
Theorem every_event_is_received script :
  received_events (NewWatcher script).1 = script_events script.
Proof.
  unfold NewWatcher. generalize EmptyString as b.
  induction script as [|w later IH]; intros b; simpl; [done|].
  destruct w as [err|selects].
  - specialize (IH b). destruct (watcher_loop b later) as [t g]. simpl in *.
    done.
  - pose proof (events_loop_received selects b) as Hev.
    pose proof (events_loop_peer_closes selects b) as Hclosed.
    pose proof (events_loop_not_closed selects b) as Hopen.
    destruct (events_loop b selects) as [[events b'] s].
    cbn [fst snd] in Hev, Hclosed, Hopen.
    destruct (peer_closes selects).
    + rewrite (Hclosed eq_refl).
      specialize (IH b'). destruct (watcher_loop b' later) as [t g].
      cbn [fst snd] in *.
      change (?a :: ?c :: events ++ ?d :: t) with ([a; c] ++ events ++ [d] ++ t).
      by rewrite !received_events_app, Hev, IH.
    + specialize (Hopen eq_refl). destruct s as [[|]|]; [|done|]; cbn [fst snd].
      * change (?a :: ?c :: events ++ ?l) with ([a; c] ++ events ++ l).
        by rewrite !received_events_app, Hev.
      * change (?a :: ?c :: events) with ([a; c] ++ events).
        rewrite !received_events_app, Hev. simpl.
        by rewrite (right_id_L [] (++)).
Qed.

(** ** Further properties of the list poller *)

Lemma list_calls_app t1 t2 : list_calls (t1 ++ t2) = list_calls t1 ++ list_calls t2.
Proof. apply omap_app. Qed.

Lemma list_calls_log_error msg err : list_calls (log_error msg err) = [].
Proof. by destruct err. Qed.

Lemma list_calls_Printf format (items : list Iface) :
  list_calls (map (Printf format) items) = [].
Proof. induction items as [|v items IH]; [done|]. by csimpl. Qed.

Lemma printed_Printf format (items : list Iface) :
  printed (map (Printf format) items) = items.
Proof. induction items as [|v items IH]; [done|]. csimpl. by rewrite IH. Qed.

Lemma poller_loop_cons list err rest sink :
  poller_loop (OnTick list err :: rest) sink =
    let '(t, sink', g) := poller_loop rest sink in
    ([TickReceived; CallList (metav1.mkListOptions false true EmptyString)]
       ++ log_error "Listing" err
       ++ map (Printf "NewListItem: %+v\n") list
       ++ t, sink', g).
Proof. done. Qed.

(** X18. The poller asks for one listing per tick it takes, each with
    [AllowWatchBookmarks] set and nothing else, and for none once it has
    taken the shutdown request. *)
Theorem poller_lists_once_per_tick selects sink :
  list_calls (ShovelList selects sink).1.1
  = replicate (length (listings selects))
              (metav1.mkListOptions false true EmptyString).
Proof.
  unfold ShovelList.
  assert (list_calls (poller_loop selects sink).1.1
          = replicate (length (listings selects))
                      (metav1.mkListOptions false true EmptyString)) as Hloop.
  { induction selects as [|sel rest IH]; [done|].
    destruct sel as [list err|]; [|done].
    rewrite poller_loop_cons.
    destruct (poller_loop rest sink) as [[t s'] g]. cbn [fst snd] in *.
    rewrite !list_calls_app, list_calls_log_error, list_calls_Printf, IH.
    done. }
  by destruct (poller_loop selects sink) as [[t s'] g].
Qed.

Lemma ShovelList_printed selects sink :
  printed (ShovelList selects sink).1.1 = concat (fst <$> listings selects).
Proof.
  unfold ShovelList.
  assert (printed (poller_loop selects sink).1.1
          = concat (fst <$> listings selects)) as Hloop.
  { induction selects as [|sel rest IH]; [done|].
    destruct sel as [list err|]; [|done].
    rewrite poller_loop_cons.
    destruct (poller_loop rest sink) as [[t s'] g]. cbn [fst snd] in *.
    rewrite !printed_app, printed_log_error, printed_Printf, IH.
    done. }
  by destruct (poller_loop selects sink) as [[t s'] g].
Qed.

(** X19. Every item of every listing taken is printed, once and in order,
    also the items of a listing that comes with an error. *)
Theorem poller_prints_every_item selects sink :
  printed (ShovelList selects sink).1.1 = concat (fst <$> listings selects).
Proof. apply ShovelList_printed. Qed.

(** X20. Only the shutdown request ends the poller: its goroutine has
    returned exactly when one of its [select] statements took that case,
    whatever errors the listings gave. *)
Theorem poller_returns_iff_close selects sink :
  (ShovelList selects sink).2 = PollerReturned ↔ OnPollerClose ∈ selects.
Proof.
  unfold ShovelList.
  assert ((poller_loop selects sink).2 = PollerReturned
          ↔ OnPollerClose ∈ selects) as Hloop.
  { induction selects as [|sel rest IH].
    - simpl. split; [done|]. by intros ?%elem_of_nil.
    - destruct sel as [list err|].
      + rewrite poller_loop_cons.
        destruct (poller_loop rest sink) as [[t s'] g]. cbn [fst snd] in *.
        rewrite IH, elem_of_cons. split; [by right|]. by intros [?|?].
      + simpl. split; [intros _|done]. apply elem_of_cons. by left. }
  by destruct (poller_loop selects sink) as [[t s'] g].
Qed.

(** The copy loop of [MetricsLister.List] once the items [stored] are in
    place. *)
Lemma MetricsLister_copy (Items : list PodMetrics) : ∀ stored : list Iface,
  foldl (λ result kv, <[kv.1 := PodMetrics_any kv.2]> result)
        (stored ++ replicate (length Items) INil)
        (imap (λ i v, (length stored + i, v)%nat) Items)
  = stored ++ (PodMetrics_any <$> Items).
Proof.
  induction Items as [|v Items IH]; intros stored; [done|].
  rewrite imap_cons. simpl.
  rewrite insert_app_r. simpl.
  rewrite (imap_ext _ (λ i x, (length (stored ++ [PodMetrics_any v]) + i, x)%nat)).
  - rewrite (cons_middle (PodMetrics_any v) stored), (assoc_L (++)).
    rewrite IH. by rewrite <-(assoc_L (++)).
  - intros i x _. simpl. rewrite length_app. simpl. f_equal. lia.
Qed.

(** X21. [MetricsLister.List] returns the items of the listing, each as an
    [interface{}], in their order and with no error; when the clientset
    returns an error it returns that error and no item. *)
Theorem MetricsLister_List_copies (Items : list PodMetrics) :
  MetricsLister_List Items None = (PodMetrics_any <$> Items, None) ∧
  ∀ e, MetricsLister_List Items (Some e) = ([], Some e).
Proof.
  split; [|done]. unfold MetricsLister_List. f_equal.
  apply (MetricsLister_copy Items []).
Qed.

Lemma MetricsLister_tick_eq (Items : list PodMetrics) (err : option error) :
  MetricsLister_tick (Items, err)
  = match err with
    | Some e => OnTick [] (Some e)
    | None => OnTick (PodMetrics_any <$> Items) None
    end.
Proof.
  destruct err as [e|]; [done|].
  unfold MetricsLister_tick, MetricsLister_List. cbn [fst snd].
  f_equal. apply (MetricsLister_copy Items []).
Qed.

Lemma listings_MetricsLister (results : list (list PodMetrics * option error)) :
  fst <$> listings (MetricsLister_tick <$> results)
  = (λ r, match r.2 with
          | None => PodMetrics_any <$> r.1
          | Some _ => []
          end) <$> results.
Proof.
  induction results as [|[Items err] results IH]; [done|].
  rewrite !fmap_cons, MetricsLister_tick_eq.
  destruct err as [e|]; cbn [listings fst snd]; by rewrite fmap_cons, IH.
Qed.

(** X22. With a [MetricsLister] as its lister the poller prints the items of
    the listings that succeed and nothing for those that fail. *)
Theorem poller_prints_listed_metrics
    (results : list (list PodMetrics * option error)) sink :
  printed (ShovelList (MetricsLister_tick <$> results) sink).1.1
  = concat ((λ r, match r.2 with
                  | None => PodMetrics_any <$> r.1
                  | Some _ => []
                  end) <$> results).
Proof.
  rewrite <-listings_MetricsLister. apply ShovelList_printed.
Qed.

End Cluster.

Arguments Log {_} _ _ _.
Arguments CallWatch {_} _.
Arguments CallList {_} _.
Arguments EventReceived {_} _.
Arguments EventsClosed {_}.
Arguments CloseReceived {_}.
Arguments NewTicker {_} _.
Arguments TickReceived {_}.
Arguments Printf {_} _ _.
Arguments Send {_} _.
Arguments Sleep {_} _.
Arguments OnEvent {_} _.
Arguments OnEventsClosed {_}.
Arguments OnClose {_}.
Arguments WatchError {_} _.
Arguments WatchStream {_} _.
Arguments beats {_} _.
Arguments last_bookmark {_} _ _.
Arguments resource_versions {_} _.

(** ** Properties of the merge *)

(** C1. [Accept] gives the existing reading with, for an incoming counter,
    the sum of the two values and the incoming time, and, for an incoming
    instant, the incoming value and time; key and type stay those of the
    existing reading. *)
Theorem Accept_merges (R N : Reading) :
  (Type_ N = Counter →
     Accept R N = {| Key := Key R; Value := PrimFloat.add (Value R) (Value N);
                     Time := Time N; Type_ := Type_ R |}) ∧
  (Type_ N = Instant →
     Accept R N = {| Key := Key R; Value := Value N;
                     Time := Time N; Type_ := Type_ R |}).
Proof.
  unfold Accept. split; intros ->; reflexivity.
Qed.

(** C4. An incoming reading whose type is neither [Counter] nor [Instant]
    leaves the existing reading as it is. *)
Theorem Accept_ignores_unknown_type (R N : Reading) :
  Type_ N ≠ Counter → Type_ N ≠ Instant → Accept R N = R.
Proof.
  intros HC HI. unfold Accept.
  destruct (Z.eqb_spec (Type_ N) Counter); [done|].
  by destruct (Z.eqb_spec (Type_ N) Instant).
Qed.

Lemma Accept_Key (R N : Reading) : Key (Accept R N) = Key R.
Proof. unfold Accept. by repeat case_match. Qed.

(** ** Properties of the aggregation table *)

Lemma worker_turn_submit (lines : gmap string Reading) (rd : Reading) :
  worker_turn lines (submit rd) = Continue (store lines rd).
Proof. reflexivity. Qed.

(** C3. A reading received for a key with no entry is stored as it is,
    whatever its type. *)
Theorem first_insert_is_verbatim (lines : gmap string Reading) (rd : Reading) :
  lines !! Key rd = None →
  worker_turn lines (submit rd) = Continue (<[Key rd := rd]> lines) ∧
  <[Key rd := rd]> lines !! Key rd = Some rd.
Proof.
  intros Hfresh. rewrite worker_turn_submit. unfold store. rewrite Hfresh.
  split; [done|]. apply lookup_insert_eq.
Qed.

Lemma worker_submits (readings : list Reading) : ∀ lines : gmap string Reading,
  worker lines (submit <$> readings) = Waiting (foldl store lines readings).
Proof.
  induction readings as [|rd rest IH]; intros lines; [done|].
  simpl. apply IH.
Qed.

Lemma for_key_cons_eq (rd : Reading) (rs : list Reading) :
  for_key (Key rd) (rd :: rs) = rd :: for_key (Key rd) rs.
Proof. unfold for_key. by rewrite filter_cons_True. Qed.

Lemma for_key_cons_ne (k : string) (rd : Reading) (rs : list Reading) :
  Key rd ≠ k → for_key k (rd :: rs) = for_key k rs.
Proof. intros. unfold for_key. by rewrite filter_cons_False. Qed.

Lemma store_lookup (lines : gmap string Reading) (rd : Reading) (k : string) :
  store lines rd !! k =
    if decide (Key rd = k)
    then Some (from_option (λ val, Accept val rd) rd (lines !! k))
    else lines !! k.
Proof.
  unfold store. case_decide as Hk.
  - subst k. destruct (lines !! Key rd); simpl; by rewrite lookup_insert_eq.
  - destruct (lines !! Key rd); by rewrite lookup_insert_ne.
Qed.

(** The entry of [k] after a run of stores: the fold of the merge over the
    readings for [k], from the entry there was or from the first of them. *)
Lemma foldl_store_lookup (k : string) (readings : list Reading) :
  ∀ lines : gmap string Reading,
  foldl store lines readings !! k =
    match lines !! k with
    | Some val => Some (foldl Accept val (for_key k readings))
    | None => merge_fold (for_key k readings)
    end.
Proof.
  induction readings as [|rd rest IH]; intros lines.
  - simpl. by destruct (lines !! k).
  - simpl. rewrite IH, store_lookup. case_decide as Hk.
    + subst k. rewrite for_key_cons_eq. by destruct (lines !! Key rd).
    + by rewrite for_key_cons_ne.
Qed.

Lemma for_key_all (k : string) (readings : list Reading) :
  Forall (λ rd, Key rd = k) readings → for_key k readings = readings.
Proof.
  induction 1 as [|rd rest Hrd _ IH]; [done|].
  subst k. by rewrite for_key_cons_eq, IH.
Qed.

(** C2. After the worker has taken the readings submitted to a fresh table,
    the entry of a key is the left fold of the merge over the readings
    submitted for that key, in order, starting from the first of them as it
    is; when all the readings are for the one key, it is the fold over the
    whole sequence. *)
Theorem stored_value_is_merge_fold (readings : list Reading) (k : string) :
  ∃ lines : gmap string Reading,
    worker NewMetrics_lines (submit <$> readings) = Waiting lines ∧
    lines !! k = merge_fold (for_key k readings) ∧
    (Forall (λ rd, Key rd = k) readings → lines !! k = merge_fold readings).
Proof.
  exists (foldl store NewMetrics_lines readings).
  split; [apply worker_submits|].
  assert (foldl store NewMetrics_lines readings !! k
          = merge_fold (for_key k readings)) as Hk.
  { rewrite foldl_store_lookup. unfold NewMetrics_lines.
    by rewrite lookup_empty. }
  split; [done|]. intros Hall. by rewrite Hk, for_key_all.
Qed.

Lemma worker_turn_never_breaks (lines lines' : gmap string Reading) (r : Received) :
  worker_turn lines r ≠ Break lines'.
Proof.
  destruct r as [w|]; [|done].
  unfold worker_turn. simpl. destruct w as [|[rd|]|]; done.
Qed.

Lemma worker_never_exits (received : list Received) :
  ∀ lines lines' : gmap string Reading, worker lines received ≠ Exited lines'.
Proof.
  induction received as [|r rest IH]; intros lines lines'; [done|].
  simpl. destruct (worker_turn lines r) as [l|l|why] eqn:Hturn; [apply IH| |done].
  by apply worker_turn_never_breaks in Hturn.
Qed.

Lemma worker_app (before after : list Received) :
  ∀ lines lines' : gmap string Reading,
  worker lines before = Waiting lines' →
  worker lines (before ++ after) = worker lines' after.
Proof.
  induction before as [|r rest IH]; intros lines lines' Hrun; simpl in *.
  - by simplify_eq.
  - destruct (worker_turn lines r); [by apply IH|done..].
Qed.

Lemma worker_waiting_inv (received : list Received) :
  ∀ lines lines' : gmap string Reading,
  worker lines received = Waiting lines' →
  Forall (λ r, ∃ rd, r = submit rd) received.
Proof.
  induction received as [|r rest IH]; intros lines lines' Hrun; [done|].
  simpl in Hrun. destruct (worker_turn lines r) as [l|l|why] eqn:Hturn; [|done..].
  constructor; [|by eapply IH].
  destruct r as [[|[rd|]|]|]; try done. by exists rd.
Qed.

(** C10. The type assertion comes before the test of [ok]: on a value that
    is not a pointer to a reading the loop body panics whatever [ok] is,
    receiving from the closed channel panics, and the worker never leaves
    the loop by [break].  So a worker that receives such a value panics on
    the assertion, and the worker can only have merged everything it was
    given, and be waiting for more, when each receive gave a pointer to a
    reading from the open channel; when these are non-nil it is the fold of
    the store. *)
Theorem worker_asserts_before_ok :
  (∀ (lines : gmap string Reading) w ok,
     is_ReadingPtr w = false →
     worker_body lines w ok = Panic InterfaceConversion) ∧
  (∀ lines : gmap string Reading,
     worker_turn lines RecvFromClosed = Panic InterfaceConversion) ∧
  (∀ (lines lines' : gmap string Reading) received,
     worker lines received ≠ Exited lines') ∧
  (∀ (lines lines' : gmap string Reading) before r after,
     worker lines before = Waiting lines' →
     not_a_ReadingPtr r = true →
     worker lines (before ++ r :: after) = Panicked InterfaceConversion) ∧
  (∀ (lines lines' : gmap string Reading) received,
     worker lines received = Waiting lines' →
     Forall (λ r, ∃ p, r = RecvValue (IReadingPtr p)) received) ∧
  (∀ (lines : gmap string Reading) readings,
     worker lines (submit <$> readings) = Waiting (foldl store lines readings)).
Proof.
  repeat split.
  - intros lines w ok Hw. by destruct w.
  - intros lines lines' received. apply worker_never_exits.
  - intros lines lines' before r after Hbefore Hr.
    rewrite (worker_app _ _ _ _ Hbefore). simpl.
    destruct r as [[|p|]|]; done.
  - intros lines lines' received Hrun.
    apply worker_waiting_inv in Hrun.
    eapply Forall_impl; [done|]. intros r [rd ->]. by eexists.
  - intros lines readings. apply worker_submits.
Qed.

(** ** Properties of the exposition *)

Lemma string_app_assoc (a b c : string) : (a +:+ b) +:+ c = a +:+ (b +:+ c).
Proof.
  induction a as [|x a IH]; [done|].
  change (String x ((a +:+ b) +:+ c) = String x (a +:+ (b +:+ c))).
  by rewrite IH.
Qed.

Lemma string_app_nil_r (a : string) : a +:+ EmptyString = a.
Proof.
  induction a as [|x a IH]; [done|].
  change (String x (a +:+ EmptyString) = String x a).
  by rewrite IH.
Qed.

(** The four writes of the loop body add one line to the response. *)
Lemma handler_body_line (w k : string) (v : Reading) :
  handler_body w k v = w +:+ exposition_line k (Value v).
Proof.
  cbv beta zeta delta [handler_body exposition_line Write].
  by rewrite !string_app_assoc.
Qed.

Lemma handler_range_exposition (order : list (string * Reading)) :
  ∀ w, handler_range w order = w +:+ exposition order.
Proof.
  induction order as [|[k v] rest IH]; intros w; simpl.
  - by rewrite string_app_nil_r.
  - unfold handler_range in IH. rewrite IH, handler_body_line.
    by rewrite string_app_assoc.
Qed.

Lemma decimal_fixed_length (width : nat) : ∀ n tail,
  String.length (decimal_fixed width n tail) = (width + String.length tail)%nat.
Proof.
  induction width as [|width IH]; intros n tail; simpl; [done|].
  rewrite IH. simpl. lia.
Qed.

(** A finite value is printed in fixed-point notation: the sign, the
    integer part, the point and six decimals. *)
Lemma Sprintf_f_fixed_point (x : float) s m e :
  Prim2SF x = S754_finite s m e →
  ∃ whole decimals,
    Sprintf_f x = sign_prefix s +:+ pretty whole +:+ "." +:+ decimals ∧
    (0 <= whole)%Z ∧ String.length decimals = 6%nat.
Proof.
  intros Hx. unfold Sprintf_f. rewrite Hx. unfold fixed6.
  eexists _, _. split; [done|]. split; [|apply decimal_fixed_length].
  apply Z.div_pos; [|done]. unfold millionths. case_match.
  - apply Z.mul_nonneg_nonneg; [|done].
    apply Z.mul_nonneg_nonneg; [done|]. apply Z.pow_nonneg. done.
  - unfold round_half_even.
    assert (0 <= Z.pos m * 10 ^ 6 / 2 ^ (- e))%Z.
    { apply Z.div_pos; [done|]. apply Z.pow_pos_nonneg; lia. }
    repeat case_match; lia.
Qed.



(** ** Properties of [render] *)

(** C9. [render] never writes its [name]: the line it gives starts at the
    opening brace of the label set, as here for the sample
    [http_requests_total] with the label [method], and is the same whatever
    the name. *)
Theorem render_omits_name :
  render "http_requests_total" "1027" 1395066363000 [[("method", "post")]]
  = "{method=" +:+ double_quote +:+ "post" +:+ double_quote +:+
    "} 1027 1395066363000" ∧
  ∀ name name' value time labels,
    render name value time labels = render name' value time labels.
Proof. split; [by vm_compute|done]. Qed.

(** ** Further properties of the aggregation table *)

Lemma Accept_Type (R N : Reading) : Type_ (Accept R N) = Type_ R.
Proof. unfold Accept. by repeat case_match. Qed.

Lemma foldl_Accept_Key_Type (later : list Reading) : ∀ first,
  Key (foldl Accept first later) = Key first ∧
  Type_ (foldl Accept first later) = Type_ first.
Proof.
  induction later as [|n later IH]; intros first; simpl; [done|].
  destruct (IH (Accept first n)) as [-> ->].
  by rewrite Accept_Key, Accept_Type.
Qed.

Lemma store_keyed (lines : gmap string Reading) (rd : Reading) :
  keyed lines → keyed (store lines rd).
Proof.
  intros Hkeyed k r. rewrite store_lookup. case_decide as Hk; [|apply Hkeyed].
  intros [= <-]. destruct (lines !! k) as [val|] eqn:Hval; simpl; [|done].
  rewrite Accept_Key. by apply Hkeyed.
Qed.

Lemma worker_turn_continue (lines lines' : gmap string Reading) (r : Received) :
  worker_turn lines r = Continue lines' →
  ∃ rd, r = submit rd ∧ lines' = store lines rd.
Proof.
  destruct r as [[|[rd|]|]|]; try done. intros [= <-]. by exists rd.
Qed.

(** X1. Whatever the worker receives, as long as it goes on, each entry of
    the table is a reading of the key it is filed under. *)
Theorem table_entries_keep_their_key (received : list Received) :
  ∀ lines lines' : gmap string Reading,
  keyed lines → worker lines received = Waiting lines' → keyed lines'.
Proof.
  induction received as [|r rest IH]; intros lines lines' Hkeyed Hrun.
  - simpl in Hrun. by simplify_eq.
  - simpl in Hrun.
    destruct (worker_turn lines r) as [l|l|why] eqn:Hturn; [|done..].
    apply worker_turn_continue in Hturn as (rd & -> & ->).
    eapply IH; [|done]. by apply store_keyed.
Qed.

(** X2. The entry of a key keeps the type of the first reading submitted
    for it: later readings change its value and time only. *)
Theorem entry_type_is_first_type (readings : list Reading) (k : string)
    (lines : gmap string Reading) (r : Reading) :
  worker NewMetrics_lines (submit <$> readings) = Waiting lines →
  lines !! k = Some r →
  ∃ first later,
    for_key k readings = first :: later ∧
    Type_ r = Type_ first ∧ Key r = Key first.
Proof.
  rewrite worker_submits. intros [= <-].
  rewrite foldl_store_lookup. unfold NewMetrics_lines. rewrite lookup_empty.
  destruct (for_key k readings) as [|first later]; [done|].
  simpl. intros [= <-]. exists first, later.
  by destruct (foldl_Accept_Key_Type later first) as [-> ->].
Qed.

Lemma store_dom (lines : gmap string Reading) (rd : Reading) :
  dom (store lines rd) = {[Key rd]} ∪ dom lines.
Proof. unfold store. destruct (lines !! Key rd); apply dom_insert_L. Qed.

(** X3. The table never loses a key: after the worker has taken some
    readings its keys are those it had and those of the readings. *)
Theorem table_keys_only_grow (readings : list Reading) :
  ∀ lines : gmap string Reading,
  ∃ lines' : gmap string Reading,
    worker lines (submit <$> readings) = Waiting lines' ∧
    dom lines' = dom lines ∪ list_to_set (Key <$> readings).
Proof.
  intros lines. exists (foldl store lines readings).
  split; [apply worker_submits|]. revert lines.
  induction readings as [|rd rest IH]; intros lines; csimpl.
  - by rewrite (right_id_L ∅ (∪)).
  - rewrite IH, store_dom.
    by rewrite (comm_L (∪) {[Key rd]} (dom lines)), (assoc_L (∪)).
Qed.

(** X4. Readings for other keys leave the entry of a key as it is. *)
Theorem other_keys_untouched (readings : list Reading) (k : string)
    (lines : gmap string Reading) :
  Forall (λ rd, Key rd ≠ k) readings →
  ∃ lines' : gmap string Reading,
    worker lines (submit <$> readings) = Waiting lines' ∧
    lines' !! k = lines !! k.
Proof.
  intros Hother. exists (foldl store lines readings).
  split; [apply worker_submits|].
  rewrite foldl_store_lookup.
  assert (for_key k readings = []) as ->.
  { induction Hother as [|rd rest Hrd _ IH]; [done|].
    by rewrite for_key_cons_ne. }
  by destruct (lines !! k).
Qed.

(** X5. An [Instant] reading overrides what was accumulated: once it is
    taken, the entry of its key has its value and its time, whatever the
    table held and whatever came before. *)
Theorem instant_overrides (readings : list Reading) (n : Reading)
    (lines : gmap string Reading) :
  Type_ n = Instant →
  ∃ (lines' : gmap string Reading) (r : Reading),
    worker lines (submit <$> (readings ++ [n])) = Waiting lines' ∧
    lines' !! Key n = Some r ∧ Value r = Value n ∧ Time r = Time n.
Proof.
  intros Hn. rewrite worker_submits, foldl_app. simpl.
  eexists _, _. split; [done|]. rewrite store_lookup, decide_True by done.
  split; [done|].
  destruct (foldl store lines readings !! Key n) as [val|]; simpl; [|done].
  unfold Accept. rewrite Hn. done.
Qed.

Lemma Accept_unrecognised (R N : Reading) :
  recognised N = false → Accept R N = R.
Proof.
  unfold recognised, Accept. intros [-> ->]%orb_false_elim. done.
Qed.

(** X6. Readings of a type that is neither [Counter] nor [Instant] leave no
    trace when their key has an entry at the time they are taken, be it from
    the table as it was or from an earlier reading: the worker ends as if
    they had not been sent. *)
Theorem unrecognised_readings_leave_no_trace (readings : list Reading) :
  ∀ lines : gmap string Reading,
  sent_to_entries lines readings →
  worker lines (submit <$> readings)
  = worker lines (submit <$> filter (λ rd, recognised rd = true) readings).
Proof.
  intros lines Hknown. rewrite !worker_submits. f_equal. revert lines Hknown.
  induction readings as [|rd rest IH]; intros lines Hknown; [done|].
  destruct Hknown as [Hrd Hrest].
  destruct (recognised rd) eqn:Hrec.
  - rewrite filter_cons_True by done. simpl. by apply IH.
  - rewrite filter_cons_False by (by rewrite Hrec). simpl.
    destruct (Hrd eq_refl) as [val Hval].
    assert (store lines rd = lines) as Hsame.
    { unfold store. rewrite Hval, Accept_unrecognised by done.
      by apply insert_id. }
    rewrite Hsame in Hrest |- *. by apply IH.
Qed.

(** X7. A nil pointer to a reading passes the type assertion and panics the
    worker at [reading.Key], whatever was merged before and whatever is
    sent after. *)
Theorem nil_pointer_panics (before after : list Received)
    (lines lines' : gmap string Reading) :
  worker lines before = Waiting lines' →
  worker lines (before ++ RecvValue (IReadingPtr None) :: after)
  = Panicked NilDereference.
Proof. intros Hbefore. by rewrite (worker_app _ _ _ _ Hbefore). Qed.

(** ** Further properties of the exposition *)

Lemma CreateHandler_exposition (lines : gmap string Reading) (body : string) :
  CreateHandler lines body ↔
  ∃ order, order ≡ₚ map_to_list lines ∧ body = exposition order.
Proof.
  unfold CreateHandler, range_order.
  split; intros (order & Horder & ->); exists order; (split; [done|]);
    by rewrite handler_range_exposition.
Qed.

Lemma CreateHandler_singleton (k : string) (r : Reading) (body : string) :
  CreateHandler {[k := r]} body ↔ body = exposition_line k (Value r).
Proof.
  rewrite CreateHandler_exposition, map_to_list_singleton. split.
  - intros (order & Horder & ->).
    apply Permutation_singleton_r in Horder as ->.
    simpl. apply string_app_nil_r.
  - intros ->. exists [(k, r)]. split; [done|].
    simpl. by rewrite string_app_nil_r.
Qed.

(** X8. With a single entry there is one response: the line of that entry. *)
Theorem handler_single_entry (k : string) (r : Reading) (body : string) :
  CreateHandler {[k := r]} body ↔ body = exposition_line k (Value r).
Proof. apply CreateHandler_singleton. Qed.

Lemma exposition_nonempty (kv : string * Reading) (rest : list (string * Reading)) :
  exposition (kv :: rest) ≠ EmptyString.
Proof.
  simpl. unfold exposition_line. rewrite !string_app_assoc.
  destruct kv.1; done.
Qed.

(** X9. The response is empty for the empty table only. *)
Theorem handler_body_empty_iff (lines : gmap string Reading) :
  CreateHandler lines EmptyString ↔ lines = ∅.
Proof.
  rewrite CreateHandler_exposition. split.
  - intros (order & Horder & Hbody). destruct order as [|kv rest].
    + symmetry in Horder. apply Permutation_nil_r in Horder.
      by apply map_to_list_empty_iff.
    + symmetry in Hbody. by apply exposition_nonempty in Hbody.
  - intros ->. exists []. by rewrite map_to_list_empty.
Qed.

Lemma exposition_rows (order1 : list (string * Reading)) :
  ∀ order2 : list (string * Reading),
  prod_map id Value <$> order1 = prod_map id Value <$> order2 →
  exposition order1 = exposition order2.
Proof.
  induction order1 as [|[k1 r1] rest1 IH]; intros [|[k2 r2] rest2] Hrows;
    try done.
  simpl in *. injection Hrows as -> -> Hrest. by rewrite (IH rest2).
Qed.

Lemma CreateHandler_values (m1 m2 : gmap string Reading) (body : string) :
  Value <$> m1 = Value <$> m2 → CreateHandler m1 body → CreateHandler m2 body.
Proof.
  intros Hvalues. rewrite !CreateHandler_exposition.
  intros (order1 & Horder1 & ->).
  assert (prod_map id Value <$> order1
          ≡ₚ prod_map id Value <$> map_to_list m2) as Hrows.
  { rewrite Horder1, <-!map_to_list_fmap. by rewrite Hvalues. }
  apply Permutation.Permutation_map_inv in Hrows as (order2 & Heq & Horder2).
  exists order2. split; [by symmetry|]. by apply exposition_rows.
Qed.

(** X10. The handler shows the keys and the values only: two tables with
    the same values under the same keys, whatever the times and types of
    their readings, have the same responses. *)
Theorem handler_shows_keys_and_values_only (m1 m2 : gmap string Reading)
    (body : string) :
  Value <$> m1 = Value <$> m2 →
  CreateHandler m1 body ↔ CreateHandler m2 body.
Proof.
  intros Hvalues. split; by apply CreateHandler_values.
Qed.

(** X11. After the readings of a single key, sent to a fresh table, the
    response is the one line of that key, with the value of the merge. *)
Theorem exposition_after_submissions (first : Reading) (later : list Reading) :
  Forall (λ rd, Key rd = Key first) later →
  ∃ lines : gmap string Reading,
    worker NewMetrics_lines (submit <$> first :: later) = Waiting lines ∧
    ∀ body,
      CreateHandler lines body ↔
      body = exposition_line (Key first) (Value (foldl Accept first later)).
Proof.
  intros Hkey. exists {[Key first := foldl Accept first later]}. split.
  - rewrite worker_submits. f_equal. apply map_eq. intros k.
    rewrite foldl_store_lookup. unfold NewMetrics_lines. rewrite lookup_empty.
    destruct (decide (Key first = k)) as [<-|Hk].
    + rewrite for_key_all by (by constructor).
      by rewrite lookup_singleton_eq.
    + rewrite lookup_singleton_ne by done.
      rewrite for_key_cons_ne by done.
      assert (for_key k later = []) as ->; [|done].
      induction Hkey as [|rd rest Hrd _ IH]; [done|].
      rewrite for_key_cons_ne by congruence. apply IH.
  - intros body. apply CreateHandler_singleton.
Qed.

(** ** Further properties of [render] *)

(** The separators and labels [render] writes once [first] is false. *)
Lemma render_entries_later (l : list (string * string)) : ∀ buffer,
  foldl render_entry (buffer, false) l
  = (buffer +:+ foldr (λ kv rest, ", " +:+ label_pair kv +:+ rest) EmptyString l,
     false).
Proof.
  induction l as [|kv l IH]; intros buffer; simpl.
  - by rewrite string_app_nil_r.
  - rewrite IH. f_equal. unfold WriteString, label_pair.
    by rewrite !string_app_assoc.
Qed.

Lemma concat_labels_cons (p : string) (ps : list string) :
  String.concat ", " (p :: ps)
  = p +:+ foldr (λ q rest, ", " +:+ q +:+ rest) EmptyString ps.
Proof.
  revert p. induction ps as [|q ps IH]; intros p.
  - simpl. by rewrite string_app_nil_r.
  - change (String.concat ", " (p :: q :: ps))
      with (p +:+ ", " +:+ String.concat ", " (q :: ps)).
    by rewrite IH.
Qed.

Lemma render_entries (l : list (string * string)) (buffer : string) :
  foldl render_entry (buffer, true) l
  = (buffer +:+ String.concat ", " (label_pair <$> l), bool_decide (l = [])).
Proof.
  destruct l as [|kv l].
  - simpl. by rewrite string_app_nil_r.
  - rewrite fmap_cons, concat_labels_cons. simpl.
    rewrite render_entries_later. f_equal. unfold WriteString.
    fold (label_pair kv).
    assert (foldr (λ q rest, ", " +:+ q +:+ rest) EmptyString (label_pair <$> l)
            = foldr (λ kv' rest, ", " +:+ label_pair kv' +:+ rest) EmptyString l)
      as ->.
    { induction l as [|kv' l IH]; csimpl; [done|]. by rewrite IH. }
    generalize (foldr (λ kv' rest, ", " +:+ label_pair kv' +:+ rest) EmptyString l).
    intros tail. unfold label_pair. by rewrite !string_app_assoc.
Qed.

Lemma render_labels (labels : list (list (string * string))) : ∀ st,
  foldl (λ st l, foldl render_entry st l) st labels
  = foldl render_entry st (concat labels).
Proof.
  induction labels as [|l labels IH]; intros st; simpl; [done|].
  by rewrite foldl_app, IH.
Qed.

Lemma render_eq (name value : string) (time : Z)
    (labels : list (list (string * string))) :
  render name value time labels
  = "{" +:+ String.concat ", " (label_pair <$> concat labels)
    +:+ "} " +:+ value +:+ " " +:+ pretty time.
Proof.
  unfold render. rewrite render_labels, render_entries.
  unfold WriteString. by rewrite !string_app_assoc.
Qed.

(** X12. [render] gives the labels of all its maps in one pair of braces,
    in the order it meets them and separated by a comma and a space, then
    the value and the decimal timestamp; neither the name nor a newline is
    written, and the maps are not told apart. *)
Theorem render_closed_form (name value : string) (time : Z)
    (labels : list (list (string * string))) :
  render name value time labels
  = "{" +:+ String.concat ", " (label_pair <$> concat labels)
    +:+ "} " +:+ value +:+ " " +:+ pretty time.
Proof. apply render_eq. Qed.

(** X13. [render] escapes nothing: a label value that holds a double quote
    reads as more labels.  The one label [k] with the value
    [v", k'="v'] gives the line of the two labels [k="v"] and [k'="v'"]. *)
Theorem render_does_not_escape (name value : string) (time : Z)
    (k v k' v' : string) :
  render name value time
    [[(k, v +:+ double_quote +:+ ", " +:+ k' +:+ "=" +:+ double_quote +:+ v')]]
  = render name value time [[(k, v); (k', v')]].
Proof.
  rewrite !render_eq. simpl. unfold label_pair. simpl.
  by rewrite !string_app_assoc.
Qed.

(** ** Properties of [main] *)


Ltac sync_absent :=
  split; [|done]; simpl; rewrite ?elem_of_cons, elem_of_nil;
  intros H; repeat destruct H as [H|H]; done.

(** X24. The deferred [logger.Sync] runs only when [main] returns: not
    when the logger cannot be made, where [main] panics before the [defer],
    and not on any of the exits. *)
Theorem sync_runs_only_on_return (flags : Flags) (o : Outcomes) :
  Sync ∈ (main flags o).1 ↔ (main flags o).2 = Returns.
Proof.
  destruct o as [l c p m a cl li], flags as [kc ns dbg]; unfold main; simpl.
  destruct l as [e|]; [by destruct dbg; sync_absent|].
  destruct c as [e|]; [by destruct dbg; sync_absent|].
  destruct p as [e|]; [by destruct dbg; sync_absent|].
  destruct m as [e|]; [by destruct dbg; sync_absent|].
  destruct a as [e|]; [by destruct dbg; sync_absent|].
  destruct cl as [e|]; [by destruct dbg; sync_absent|].
  destruct li as [e|]; [by destruct dbg; sync_absent|].
  split; [done|]. intros _. simpl.
  rewrite !elem_of_cons. tauto.
Qed.


(** ** The bookmark after a failed conversion *)

(** C5. A connect attempt made after bookmark events were observed can go
    without the resume token.  Here the objects of the events are optional
    resource versions, [None] being an object the scheme cannot convert to
    a pod, which leaves the pod as it was.  The first stream delivers the
    bookmark 42 and is closed; the second attempt resumes from 42.  The
    second stream delivers a bookmark that does not convert: the error is
    logged, [bookmark] is set all the same, to the empty resource version of
    the zero pod, and the third attempt carries no resource version. *)
Theorem failed_bookmark_conversion_loses_the_token :
  NewWatcher (option string)
    (λ o pod, match o with
              | Some rv => (apiv1.mkPod rv, None)
              | None => (pod, Some "cannot convert to v1.Pod")
              end)
    (λ _, (IOther "v1.Pod", None))
    [WatchStream [OnEvent (watch.mkEvent "BOOKMARK" (Some "42")); OnEventsClosed];
     WatchStream [OnEvent (watch.mkEvent "BOOKMARK" None); OnEventsClosed]]
  = ([Log Info "Watcher connecting" None;
      CallWatch (metav1.mkListOptions true true EmptyString);
      EventReceived (watch.mkEvent "BOOKMARK" (Some "42"));
      Log Debug "Bookmark received" (Some "42");
      EventsClosed;
      Log Info "Watcher disconnected" None;
      Sleep (2 * Second);
      Log Info "Watcher connecting" None;
      CallWatch (metav1.mkListOptions true true "42");
      EventReceived (watch.mkEvent "BOOKMARK" None);
      Log Error "Converting bookmark" (Some "cannot convert to v1.Pod");
      Log Debug "Bookmark received" (Some EmptyString);
      EventsClosed;
      Log Info "Watcher disconnected" None;
      Sleep (2 * Second);
      Log Info "Watcher connecting" None;
      CallWatch (metav1.mkListOptions true true EmptyString)],
     InWatch EmptyString) ∧
  resource_versions
    (NewWatcher (option string)
       (λ o pod, match o with
                 | Some rv => (apiv1.mkPod rv, None)
                 | None => (pod, Some "cannot convert to v1.Pod")
                 end)
       (λ _, (IOther "v1.Pod", None))
       [WatchStream [OnEvent (watch.mkEvent "BOOKMARK" (Some "42")); OnEventsClosed];
        WatchStream [OnEvent (watch.mkEvent "BOOKMARK" None); OnEventsClosed]]).1
  = [EmptyString; "42"; EmptyString].
Proof. split; reflexivity. Qed.

(** ** The properties at sample inputs *)

(** [Counter{5}] then [Instant{3}] gives 3; [Instant{3}] then [Counter{5}]
    gives 8. *)
Lemma Accept_merges_witness :
  (Type_ (mkReading "k" 3 "t2" Instant) = Instant ∧
   Accept (mkReading "k" 5 "t1" Counter) (mkReading "k" 3 "t2" Instant)
   = mkReading "k" 3 "t2" Counter) ∧
  (Type_ (mkReading "k" 5 "t2" Counter) = Counter ∧
   Accept (mkReading "k" 3 "t1" Instant) (mkReading "k" 5 "t2" Counter)
   = mkReading "k" 8 "t2" Instant).
Proof.
  split; (split; [reflexivity|]).
  - apply (proj2 (Accept_merges (mkReading "k" 5 "t1" Counter)
                                (mkReading "k" 3 "t2" Instant))).
    reflexivity.
  - apply (proj1 (Accept_merges (mkReading "k" 3 "t1" Instant)
                                (mkReading "k" 5 "t2" Counter))).
    reflexivity.
Defined.

(** A reading of the zero [MetricType] changes nothing. *)
Lemma Accept_ignores_unknown_type_witness :
  Type_ (mkReading "k" 7 "t2" 0) ≠ Counter ∧
  Type_ (mkReading "k" 7 "t2" 0) ≠ Instant ∧
  Accept (mkReading "k" 5 "t1" Counter) (mkReading "k" 7 "t2" 0)
  = mkReading "k" 5 "t1" Counter.
Proof.
  split; [discriminate|]. split; [discriminate|].
  apply Accept_ignores_unknown_type; discriminate.
Defined.

Lemma first_insert_is_verbatim_witness :
  (∅ : gmap string Reading) !! Key (mkReading "k" 5 "t1" 0) = None ∧
  worker_turn ∅ (submit (mkReading "k" 5 "t1" 0))
  = Continue (<["k" := mkReading "k" 5 "t1" 0]> ∅) ∧
  <["k" := mkReading "k" 5 "t1" 0]> (∅ : gmap string Reading) !! "k"
  = Some (mkReading "k" 5 "t1" 0).
Proof.
  split; [reflexivity|].
  apply (first_insert_is_verbatim ∅ (mkReading "k" 5 "t1" 0)). reflexivity.
Defined.

(** [Counter{5}] then [Counter{3}] to a fresh key: 8, at the time of the
    second. *)
Lemma stored_value_is_merge_fold_witness :
  ∃ lines : gmap string Reading,
    worker NewMetrics_lines
      [submit (mkReading "k" 5 "t1" Counter); submit (mkReading "k" 3 "t2" Counter)]
    = Waiting lines ∧
    lines !! "k" = Some (mkReading "k" 8 "t2" Counter).
Proof.
  destruct (stored_value_is_merge_fold
              [mkReading "k" 5 "t1" Counter; mkReading "k" 3 "t2" Counter] "k")
    as (lines & Hrun & _ & Hall).
  exists lines. split; [exact Hrun|].
  apply Hall. repeat constructor.
Defined.

(** A reading, then the channel is closed: the worker panics on the
    assertion. *)
Lemma worker_asserts_before_ok_witness :
  worker ∅ [submit (mkReading "k" 5 "t1" Counter)]
  = Waiting (<["k" := mkReading "k" 5 "t1" Counter]> ∅) ∧
  not_a_ReadingPtr RecvFromClosed = true ∧
  worker ∅ [submit (mkReading "k" 5 "t1" Counter); RecvFromClosed]
  = Panicked InterfaceConversion.
Proof.
  split; [reflexivity|]. split; [reflexivity|].
  destruct worker_asserts_before_ok as (_ & _ & _ & Hpanic & _).
  apply (Hpanic ∅ (<["k" := mkReading "k" 5 "t1" Counter]> ∅)
           [submit (mkReading "k" 5 "t1" Counter)] RecvFromClosed []);
    reflexivity.
Defined.


(** A session that delivers the bookmark 42 and is closed by the peer: the
    first attempt has no resource version, the next one asks for 42. *)
Lemma connect_carries_last_bookmark_version_witness :
  (NewWatcher string (λ o _, (apiv1.mkPod o, None)) (λ _, (IOther "v1.Pod", None))
     [WatchStream [OnEvent (watch.mkEvent "BOOKMARK" "42"); OnEventsClosed]]).1
  = [Log Info "Watcher connecting" None;
     CallWatch (metav1.mkListOptions true true EmptyString);
     EventReceived (watch.mkEvent "BOOKMARK" "42");
     Log Debug "Bookmark received" (Some "42");
     EventsClosed;
     Log Info "Watcher disconnected" None;
     Sleep 2000000000;
     Log Info "Watcher connecting" None]
    ++ CallWatch (metav1.mkListOptions true true "42") :: [] ∧
  last_bookmark (λ o _, (apiv1.mkPod o, None))
    [Log Info "Watcher connecting" None;
     CallWatch (metav1.mkListOptions true true EmptyString);
     EventReceived (watch.mkEvent "BOOKMARK" "42");
     Log Debug "Bookmark received" (Some "42");
     EventsClosed;
     Log Info "Watcher disconnected" None;
     Sleep 2000000000;
     Log Info "Watcher connecting" None]
  = Some "42" ∧
  metav1.ResourceVersion (metav1.mkListOptions true true "42") = "42".
Proof.
  split; [reflexivity|]. split; [reflexivity|].
  destruct (connect_carries_last_bookmark_version string
              (λ o _, (apiv1.mkPod o, None)) (λ _, (IOther "v1.Pod", None))
              [WatchStream [OnEvent (watch.mkEvent "BOOKMARK" "42"); OnEventsClosed]]
              [Log Info "Watcher connecting" None;
               CallWatch (metav1.mkListOptions true true EmptyString);
               EventReceived (watch.mkEvent "BOOKMARK" "42");
               Log Debug "Bookmark received" (Some "42");
               EventsClosed;
               Log Info "Watcher disconnected" None;
               Sleep 2000000000;
               Log Info "Watcher connecting" None]
              (metav1.mkListOptions true true "42") [] eq_refl)
    as (Hsome & _).
  apply (Hsome "42"). reflexivity.
Defined.

(** A refused connection, then a stream the peer closes at once: three
    attempts, two seconds of wait after each of the first two. *)
Lemma backoff_is_fixed_witness :
  NewWatcher string (λ o _, (apiv1.mkPod o, None)) (λ _, (IOther "v1.Pod", None))
    [WatchError "refused"; WatchStream [OnEventsClosed]]
  = ([Log Info "Watcher connecting" None;
      CallWatch (metav1.mkListOptions true true EmptyString);
      Log Error "Watcher connecting" (Some "refused");
      Sleep 2000000000;
      Log Info "Watcher connecting" None;
      CallWatch (metav1.mkListOptions true true EmptyString);
      EventsClosed;
      Log Info "Watcher disconnected" None;
      Sleep 2000000000;
      Log Info "Watcher connecting" None;
      CallWatch (metav1.mkListOptions true true EmptyString)],
     InWatch EmptyString) ∧
  beats [Log Info "Watcher connecting" None;
         CallWatch (metav1.mkListOptions true true EmptyString);
         Log Error "Watcher connecting" (Some "refused");
         Sleep 2000000000;
         Log Info "Watcher connecting" None;
         CallWatch (metav1.mkListOptions true true EmptyString);
         @EventsClosed string;
         Log Info "Watcher disconnected" None;
         Sleep 2000000000;
         Log Info "Watcher connecting" None;
         CallWatch (metav1.mkListOptions true true EmptyString)]
  = [Connects; Waits 2000000000; Connects; Waits 2000000000; Connects].
Proof.
  split; [reflexivity|].
  destruct (backoff_is_fixed string
              (λ o _, (apiv1.mkPod o, None)) (λ _, (IOther "v1.Pod", None))
              [WatchError "refused"; WatchStream [OnEventsClosed]] _ _ eq_refl)
    as (_ & _ & Hretry & _).
  apply Hretry. repeat constructor.
Defined.

(** A tick listing one item, then the shutdown request: nothing is sent. *)
Lemma poller_never_submits_witness :
  ShovelList string [OnTick [IOther "v1beta1.PodMetrics"] None; OnPollerClose] []
  = ([NewTicker 10000000000;
      TickReceived;
      CallList (metav1.mkListOptions false true EmptyString);
      Printf "NewListItem: %+v\n" (IOther "v1beta1.PodMetrics");
      CloseReceived],
     [], PollerReturned) ∧
  worker ∅ (RecvValue <$> []) = Waiting ∅.
Proof.
  split; [reflexivity|].
  destruct (poller_never_submits string
              [OnTick [IOther "v1beta1.PodMetrics"] None; OnPollerClose] []
              _ _ _ ∅ eq_refl) as (_ & _ & Hworker).
  exact Hworker.
Defined.

(** ** The further properties at sample inputs *)

Lemma table_entries_keep_their_key_witness :
  keyed (∅ : gmap string Reading) ∧
  worker ∅ [submit (mkReading "k" 5 "t1" Counter)]
  = Waiting (<["k" := mkReading "k" 5 "t1" Counter]> ∅) ∧
  keyed (<["k" := mkReading "k" 5 "t1" Counter]> (∅ : gmap string Reading)).
Proof.
  assert (keyed (∅ : gmap string Reading)) as Hempty.
  { intros k r Hk. rewrite lookup_empty in Hk. discriminate Hk. }
  split; [exact Hempty|]. split; [reflexivity|].
  apply (table_entries_keep_their_key
           [submit (mkReading "k" 5 "t1" Counter)] ∅ _ Hempty).
  reflexivity.
Defined.

(** [Instant{3}] then [Counter{5}]: the entry holds 8 and is still an
    [Instant]. *)
Lemma entry_type_is_first_type_witness :
  worker NewMetrics_lines
    (submit <$> [mkReading "k" 3 "t1" Instant; mkReading "k" 5 "t2" Counter])
  = Waiting (<["k" := mkReading "k" 8 "t2" Instant]> ∅) ∧
  (<["k" := mkReading "k" 8 "t2" Instant]> ∅ : gmap string Reading) !! "k"
  = Some (mkReading "k" 8 "t2" Instant) ∧
  ∃ first later,
    for_key "k" [mkReading "k" 3 "t1" Instant; mkReading "k" 5 "t2" Counter]
    = first :: later ∧
    Type_ (mkReading "k" 8 "t2" Instant) = Type_ first ∧
    Key (mkReading "k" 8 "t2" Instant) = Key first.
Proof.
  assert (worker NewMetrics_lines
            (submit <$> [mkReading "k" 3 "t1" Instant; mkReading "k" 5 "t2" Counter])
          = Waiting (<["k" := mkReading "k" 8 "t2" Instant]> ∅)) as Hrun.
  { vm_compute. reflexivity. }
  split; [exact Hrun|]. split; [reflexivity|].
  apply (entry_type_is_first_type _ "k" _ _ Hrun). reflexivity.
Defined.

Lemma other_keys_untouched_witness :
  Forall (λ rd, Key rd ≠ "b") [mkReading "a" 5 "t1" Counter] ∧
  ∃ lines' : gmap string Reading,
    worker {["b" := mkReading "b" 2 "t0" Instant]}
           (submit <$> [mkReading "a" 5 "t1" Counter])
    = Waiting lines' ∧
    lines' !! "b"
    = ({["b" := mkReading "b" 2 "t0" Instant]} : gmap string Reading) !! "b".
Proof.
  assert (Forall (λ rd, Key rd ≠ "b") [mkReading "a" 5 "t1" Counter]) as Hother.
  { constructor; [discriminate|constructor]. }
  split; [exact Hother|].
  apply (other_keys_untouched _ "b" _ Hother).
Defined.

(** [Counter{5}] then [Instant{3}]: the entry has the value and the time of
    the second. *)
Lemma instant_overrides_witness :
  Type_ (mkReading "k" 3 "t2" Instant) = Instant ∧
  ∃ (lines' : gmap string Reading) (r : Reading),
    worker ∅ (submit <$> ([mkReading "k" 5 "t1" Counter]
                            ++ [mkReading "k" 3 "t2" Instant]))
    = Waiting lines' ∧
    lines' !! "k" = Some r ∧ Value r = 3%float ∧ Time r = "t2".
Proof.
  split; [reflexivity|].
  apply (instant_overrides [mkReading "k" 5 "t1" Counter]
                           (mkReading "k" 3 "t2" Instant) ∅).
  reflexivity.
Defined.

(** On the fresh table, a reading of the zero type between two counters of
    its key: the table ends as without it. *)
Lemma unrecognised_readings_leave_no_trace_witness :
  sent_to_entries ∅
    [mkReading "k" 5 "t1" Counter; mkReading "k" 7 "t2" 0;
     mkReading "k" 3 "t3" Counter] ∧
  worker ∅ (submit <$> [mkReading "k" 5 "t1" Counter; mkReading "k" 7 "t2" 0;
                        mkReading "k" 3 "t3" Counter])
  = worker ∅ (submit <$> filter (λ rd, recognised rd = true)
                           [mkReading "k" 5 "t1" Counter; mkReading "k" 7 "t2" 0;
                            mkReading "k" 3 "t3" Counter]).
Proof.
  assert (sent_to_entries ∅
            [mkReading "k" 5 "t1" Counter; mkReading "k" 7 "t2" 0;
             mkReading "k" 3 "t3" Counter]) as Hknown.
  { simpl. split; [discriminate|]. split; [|split; [discriminate|exact I]].
    intros _. eexists. vm_compute. reflexivity. }
  split; [exact Hknown|].
  apply (unrecognised_readings_leave_no_trace _ _ Hknown).
Defined.

Lemma nil_pointer_panics_witness :
  worker ∅ [submit (mkReading "k" 5 "t1" Counter)]
  = Waiting (<["k" := mkReading "k" 5 "t1" Counter]> ∅) ∧
  worker ∅ ([submit (mkReading "k" 5 "t1" Counter)]
              ++ RecvValue (IReadingPtr None)
              :: [submit (mkReading "k" 3 "t2" Counter)])
  = Panicked NilDereference.
Proof.
  split; [reflexivity|].
  apply (nil_pointer_panics [submit (mkReading "k" 5 "t1" Counter)]
           [submit (mkReading "k" 3 "t2" Counter)] ∅
           (<["k" := mkReading "k" 5 "t1" Counter]> ∅)).
  reflexivity.
Defined.

(** Two tables that differ in the time and the type of their reading. *)
Lemma handler_shows_keys_and_values_only_witness :
  Value <$> ({["a" := mkReading "a" 1 "t1" Counter]} : gmap string Reading)
  = Value <$> ({["a" := mkReading "a" 1 "t2" Instant]} : gmap string Reading) ∧
  (CreateHandler {["a" := mkReading "a" 1 "t1" Counter]} ("a 1.000000" +:+ newline)
   ↔ CreateHandler {["a" := mkReading "a" 1 "t2" Instant]} ("a 1.000000" +:+ newline)).
Proof.
  assert (Value <$> ({["a" := mkReading "a" 1 "t1" Counter]} : gmap string Reading)
          = Value <$> ({["a" := mkReading "a" 1 "t2" Instant]} : gmap string Reading))
    as Hvalues.
  { vm_compute. reflexivity. }
  split; [exact Hvalues|].
  apply (handler_shows_keys_and_values_only _ _ _ Hvalues).
Defined.

(** [Counter{5}] then [Counter{3}]: the response is the line [k 8.000000]. *)
Lemma exposition_after_submissions_witness :
  Forall (λ rd, Key rd = Key (mkReading "k" 5 "t1" Counter))
         [mkReading "k" 3 "t2" Counter] ∧
  ∃ lines : gmap string Reading,
    worker NewMetrics_lines
      (submit <$> mkReading "k" 5 "t1" Counter :: [mkReading "k" 3 "t2" Counter])
    = Waiting lines ∧
    ∀ body, CreateHandler lines body ↔ body = "k 8.000000" +:+ newline.
Proof.
  assert (Forall (λ rd, Key rd = Key (mkReading "k" 5 "t1" Counter))
                 [mkReading "k" 3 "t2" Counter]) as Hkey.
  { repeat constructor. }
  split; [exact Hkey|].
  destruct (exposition_after_submissions (mkReading "k" 5 "t1" Counter)
              [mkReading "k" 3 "t2" Counter] Hkey) as (lines & Hrun & Hbody).
  exists lines. split; [exact Hrun|]. exact Hbody.
Defined.

(** A stream on which the shutdown request is taken at once. *)
Lemma shutdown_sleeps_then_returns_witness :
  (NewWatcher string (λ o _, (apiv1.mkPod o, None)) (λ _, (IOther "v1.Pod", None))
     [WatchStream [OnClose]]).2 = Returned ∧
  ∃ t,
    (NewWatcher string (λ o _, (apiv1.mkPod o, None)) (λ _, (IOther "v1.Pod", None))
       [WatchStream [OnClose]]).1
    = t ++ [CloseReceived; Sleep (2 * Second)].
Proof.
  split; [reflexivity|].
  apply (shutdown_sleeps_then_returns string
           (λ o _, (apiv1.mkPod o, None)) (λ _, (IOther "v1.Pod", None))
           [WatchStream [OnClose]]).
  reflexivity.
Defined.


